(** * Zulim sabe-tudo: the live voice session of the [App] component

    A shallow embedding of [App.tsx]: the React state and the refs of the
    component form one record, every callback of the component is a
    function from that record to the next one together with the calls it
    makes on its collaborators (audio graph, transport, animation frames).

    Modelling choices, all visible in the definitions below:
    - JavaScript numbers are exact rationals ([Q]); only order, [max],
      [min], addition and one division by 100 are used.
    - JavaScript strings are lists of UTF-16 code units.
    - [decodeAudioData] lives in [utils/audioUtils]; the message handler
      receives the duration of the buffer it returned.
    - [step] and [run] take every callback to completion, one after the
      other.  [runtime_step] and [runtime_run] take the message handler
      apart at its [await], let the decode fail, and keep the lip-sync
      callbacks that wait in [requestAnimationFrame].
    - [AudioBufferSourceNode]s are identified by the order of their
      creation. *)

From Stdlib Require Import QArith Qminmax Lqa Lia List NArith ZArith Bool.
From Stdlib Require Strings.String Strings.Ascii Strings.Byte.
From stdpp Require Import base gmap sets.
Import ListNotations.
Import Strings.String.StringSyntax.

(** ** JavaScript strings *)

Module JsString.

(** A string is its sequence of UTF-16 code units. *)
Abbreviation t := (list N) (only parsing).

(** Literal made of ASCII characters. *)
Definition lit (s : String.string) : t :=
  map Ascii.N_of_ascii (String.list_ascii_of_string s).

Arguments lit s%_string_scope.

(** Truthiness of a string: every string but the empty one. *)
Definition truthy (s : t) : bool :=
  match s with [] => false | _ :: _ => true end.

(** [a || b] on strings that may be [undefined]. *)
Definition or_else (a : option t) (b : t) : t :=
  match a with
  | Some s => if truthy s then s else b
  | None => b
  end.

(** WhiteSpace and LineTerminator code points of ECMAScript, the
    characters [String.prototype.trim] strips. *)
Definition is_white_space (c : N) : bool :=
  existsb (N.eqb c)
    [9; 10; 11; 12; 13; 32; 160; 5760; 8232; 8233; 8239; 8287; 12288; 65279]%N
  || ((8192 <=? c)%N && (c <=? 8202)%N).

Fixpoint trimStart (s : t) : t :=
  match s with
  | [] => []
  | c :: r => if is_white_space c then trimStart r else s
  end.

Definition trimEnd (s : t) : t := rev (trimStart (rev s)).

Definition trim (s : t) : t := trimEnd (trimStart s).

Fixpoint startsWith (s p : t) : bool :=
  match p, s with
  | [], _ => true
  | _ :: _, [] => false
  | b :: p', a :: s' => (a =? b)%N && startsWith s' p'
  end.

(** [s.includes(p)] *)
Fixpoint includes (s p : t) : bool :=
  startsWith s p ||
  match s with
  | [] => false
  | _ :: r => includes r p
  end.

Definition eqb (a b : t) : bool := bool_decide (a = b).

End JsString.

Abbreviation jsstring := (list N) (only parsing).

(** ** types.ts *)

Inductive Role := user | zulim.

Record Message := { role : Role; text : jsstring }.

Inductive ConnectionStatus := DISCONNECTED | CONNECTING | CONNECTED | ERROR.

(** ** State of the component *)

Record App := mkApp {
  (* useState *)
  messages : list Message;
  inputText : jsstring;
  status : ConnectionStatus;
  isSpeaking : bool;
  audioVolume : Q;
  errorMessage : option jsstring;
  isMicEnabled : bool;
  (* useRef; a [bool] tells whether the ref holds an object *)
  audioContextRef : bool;
  outputAudioContextRef : bool;
  analyserRef : bool;
  sessionRef : bool;
  sourcesRef : gset nat;
  nextStartTimeRef : Q;
  currentOutputTranscriptionRef : jsstring;
  (* number of buffer sources created so far: the next source's identity *)
  sourceCount : nat;
  (* the variable [stream] of the latest [connectToZulim] call that
     reached [ai.live.connect]; its callbacks close over it *)
  stream : bool
}.

Definition initialApp : App :=
  {| messages := []; inputText := []; status := DISCONNECTED;
     isSpeaking := false; audioVolume := 0; errorMessage := None;
     isMicEnabled := true;
     audioContextRef := false; outputAudioContextRef := false;
     analyserRef := false; sessionRef := false; sourcesRef := ∅;
     nextStartTimeRef := 0; currentOutputTranscriptionRef := [];
     sourceCount := 0; stream := false |}.

Definition setMessages (f : list Message -> list Message) (s : App) : App :=
  mkApp (f (messages s)) (inputText s) (status s) (isSpeaking s)
    (audioVolume s) (errorMessage s) (isMicEnabled s) (audioContextRef s)
    (outputAudioContextRef s) (analyserRef s) (sessionRef s) (sourcesRef s)
    (nextStartTimeRef s) (currentOutputTranscriptionRef s) (sourceCount s)
    (stream s).

Definition setInputText (v : jsstring) (s : App) : App :=
  mkApp (messages s) v (status s) (isSpeaking s)
    (audioVolume s) (errorMessage s) (isMicEnabled s) (audioContextRef s)
    (outputAudioContextRef s) (analyserRef s) (sessionRef s) (sourcesRef s)
    (nextStartTimeRef s) (currentOutputTranscriptionRef s) (sourceCount s)
    (stream s).

Definition setStatus (v : ConnectionStatus) (s : App) : App :=
  mkApp (messages s) (inputText s) v (isSpeaking s)
    (audioVolume s) (errorMessage s) (isMicEnabled s) (audioContextRef s)
    (outputAudioContextRef s) (analyserRef s) (sessionRef s) (sourcesRef s)
    (nextStartTimeRef s) (currentOutputTranscriptionRef s) (sourceCount s)
    (stream s).

Definition setIsSpeaking (v : bool) (s : App) : App :=
  mkApp (messages s) (inputText s) (status s) v
    (audioVolume s) (errorMessage s) (isMicEnabled s) (audioContextRef s)
    (outputAudioContextRef s) (analyserRef s) (sessionRef s) (sourcesRef s)
    (nextStartTimeRef s) (currentOutputTranscriptionRef s) (sourceCount s)
    (stream s).

Definition setAudioVolume (v : Q) (s : App) : App :=
  mkApp (messages s) (inputText s) (status s) (isSpeaking s)
    v (errorMessage s) (isMicEnabled s) (audioContextRef s)
    (outputAudioContextRef s) (analyserRef s) (sessionRef s) (sourcesRef s)
    (nextStartTimeRef s) (currentOutputTranscriptionRef s) (sourceCount s)
    (stream s).

Definition setErrorMessage (v : option jsstring) (s : App) : App :=
  mkApp (messages s) (inputText s) (status s) (isSpeaking s)
    (audioVolume s) v (isMicEnabled s) (audioContextRef s)
    (outputAudioContextRef s) (analyserRef s) (sessionRef s) (sourcesRef s)
    (nextStartTimeRef s) (currentOutputTranscriptionRef s) (sourceCount s)
    (stream s).

Definition setIsMicEnabled (v : bool) (s : App) : App :=
  mkApp (messages s) (inputText s) (status s) (isSpeaking s)
    (audioVolume s) (errorMessage s) v (audioContextRef s)
    (outputAudioContextRef s) (analyserRef s) (sessionRef s) (sourcesRef s)
    (nextStartTimeRef s) (currentOutputTranscriptionRef s) (sourceCount s)
    (stream s).

Definition setSessionRef (v : bool) (s : App) : App :=
  mkApp (messages s) (inputText s) (status s) (isSpeaking s)
    (audioVolume s) (errorMessage s) (isMicEnabled s) (audioContextRef s)
    (outputAudioContextRef s) (analyserRef s) v (sourcesRef s)
    (nextStartTimeRef s) (currentOutputTranscriptionRef s) (sourceCount s)
    (stream s).

Definition setSourcesRef (v : gset nat) (s : App) : App :=
  mkApp (messages s) (inputText s) (status s) (isSpeaking s)
    (audioVolume s) (errorMessage s) (isMicEnabled s) (audioContextRef s)
    (outputAudioContextRef s) (analyserRef s) (sessionRef s) v
    (nextStartTimeRef s) (currentOutputTranscriptionRef s) (sourceCount s)
    (stream s).

Definition setNextStartTimeRef (v : Q) (s : App) : App :=
  mkApp (messages s) (inputText s) (status s) (isSpeaking s)
    (audioVolume s) (errorMessage s) (isMicEnabled s) (audioContextRef s)
    (outputAudioContextRef s) (analyserRef s) (sessionRef s) (sourcesRef s)
    v (currentOutputTranscriptionRef s) (sourceCount s)
    (stream s).

Definition setCurrentOutputTranscriptionRef (v : jsstring) (s : App) : App :=
  mkApp (messages s) (inputText s) (status s) (isSpeaking s)
    (audioVolume s) (errorMessage s) (isMicEnabled s) (audioContextRef s)
    (outputAudioContextRef s) (analyserRef s) (sessionRef s) (sourcesRef s)
    (nextStartTimeRef s) v (sourceCount s)
    (stream s).

Definition setSourceCount (v : nat) (s : App) : App :=
  mkApp (messages s) (inputText s) (status s) (isSpeaking s)
    (audioVolume s) (errorMessage s) (isMicEnabled s) (audioContextRef s)
    (outputAudioContextRef s) (analyserRef s) (sessionRef s) (sourcesRef s)
    (nextStartTimeRef s) (currentOutputTranscriptionRef s) v
    (stream s).

Definition setStream (v : bool) (s : App) : App :=
  mkApp (messages s) (inputText s) (status s) (isSpeaking s)
    (audioVolume s) (errorMessage s) (isMicEnabled s) (audioContextRef s)
    (outputAudioContextRef s) (analyserRef s) (sessionRef s) (sourcesRef s)
    (nextStartTimeRef s) (currentOutputTranscriptionRef s) (sourceCount s)
    v.

(** [initializeAudio]: both contexts and the analyser exist afterwards. *)
Definition initializeAudio (s : App) : App :=
  mkApp (messages s) (inputText s) (status s) (isSpeaking s)
    (audioVolume s) (errorMessage s) (isMicEnabled s) true
    true (if outputAudioContextRef s then analyserRef s else true)
    (sessionRef s) (sourcesRef s)
    (nextStartTimeRef s) (currentOutputTranscriptionRef s) (sourceCount s)
    (stream s).

(** ** Calls on the collaborators *)

Inductive effect :=
| StartSource (id : nat) (when duration : Q)
    (* [source.start(when)] on a source whose buffer lasts [duration] *)
| StopSources (ids : gset nat)
    (* [s.stop()] on every source of the set *)
| SendRealtimeText (t : jsstring)
    (* [sessionRef.current.sendRealtimeInput({ text })] *)
| LiveConnect
    (* [ai.live.connect(...)] *)
| StartCapture
    (* the script processor is wired to the microphone stream *)
| OpenSelectKey
| RequestAnimationFrame.
    (* [requestAnimationFrame(updateLipSync)] *)

(** A callback: next state and the calls made, in order. *)
Definition action := App -> App * list effect.

Definition pure (f : App -> App) : action := fun s => (f s, []).

Definition emit (e : effect) : action := fun s => (s, [e]).

Definition andThen (a b : action) : action :=
  fun s => let (s1, o1) := a s in
           let (s2, o2) := b s1 in (s2, o1 ++ o2).

Definition skip : action := fun s => (s, []).

Declare Scope action_scope.
Delimit Scope action_scope with action.
Bind Scope action_scope with action.
Notation "a ;; b" := (andThen a b)
  (at level 100, b at level 200, right associativity) : action_scope.
Local Open Scope action_scope.

(** ** Inbound messages of the live session *)

(** The fields of [message.serverContent] the handler reads.
    [inlineAudio = Some d]: [modelTurn.parts[0].inlineData.data] is a
    non-empty base64 string, and the buffer [decodeAudioData] makes of it
    has [duration] [d]. *)
Record LiveServerMessage := {
  inlineAudio : option Q;
  outputTranscription : option jsstring;
  turnComplete : bool;
  interrupted : bool
}.

(** *** [onmessage], audio branch (lines 142-163) *)

(** Up to the [await]: the speaking flag is raised and the playback clock
    is brought up to the output clock [now = ctx.currentTime]. *)
Definition audio_arrive (now : Q) : action :=
  pure (setIsSpeaking true) ;;
  pure (fun s => setNextStartTimeRef (Qmax (nextStartTimeRef s) now) s).

(** The 'ended' listener of a source. *)
Definition source_ended (id : nat) : action :=
  pure (fun s => setSourcesRef (sourcesRef s ∖ {[id]}) s) ;;
  (fun s => if bool_decide (size (sourcesRef s) = 0%nat)
            then pure (setIsSpeaking false) s
            else skip s).

(** After the [await]: a new source is created for the decoded buffer,
    started at the playback clock, the clock advances by the buffer's
    duration, and the source joins the active set. *)
Definition audio_schedule (duration : Q) : action :=
  fun s =>
    let source := sourceCount s in
    (pure (setSourceCount (S source)) ;;
     (fun s => emit (StartSource source (nextStartTimeRef s) duration) s) ;;
     pure (fun s => setNextStartTimeRef (nextStartTimeRef s + duration) s) ;;
     pure (fun s => setSourcesRef ({[source]} ∪ sourcesRef s) s)) s.

(** The audio branch with its [await] resolved at once to a buffer of
    the message's duration, no other callback running in between.  The
    two halves are taken apart, and the decode may fail, in
    [runtime_step] below. *)
Definition audio_branch (now : Q) (m : LiveServerMessage) : action :=
  fun s =>
    match inlineAudio m with
    | Some duration =>
        if outputAudioContextRef s
        then (audio_arrive now ;; audio_schedule duration) s
        else skip s
    | None => skip s
    end.

(** *** [onmessage], transcript branches (lines 165-175) *)

Definition transcription_branch (m : LiveServerMessage) : action :=
  match outputTranscription m with
  | Some t =>
      pure (fun s => setCurrentOutputTranscriptionRef
                       (currentOutputTranscriptionRef s ++ t) s)
  | None => skip
  end.

Definition turnComplete_branch (m : LiveServerMessage) : action :=
  if turnComplete m then
    fun s =>
      let fullText := currentOutputTranscriptionRef s in
      ((if JsString.truthy fullText
        then pure (setMessages
                     (fun prev => prev ++ [{| role := zulim; text := fullText |}]))
        else skip) ;;
       pure (setCurrentOutputTranscriptionRef [])) s
  else skip.

(** *** [onmessage], interruption branch (lines 177-182) *)

Definition interrupted_branch (m : LiveServerMessage) : action :=
  if interrupted m then
    (fun s => emit (StopSources (sourcesRef s)) s) ;;
    pure (setSourcesRef ∅) ;;
    pure (setNextStartTimeRef 0) ;;
    pure (setIsSpeaking false)
  else skip.

Definition onmessage (now : Q) (m : LiveServerMessage) : action :=
  audio_branch now m ;;
  transcription_branch m ;;
  turnComplete_branch m ;;
  interrupted_branch m.

(** Messages that carry one kind of content. *)
Definition AudioChunk (duration : Q) : LiveServerMessage :=
  {| inlineAudio := Some duration; outputTranscription := None;
     turnComplete := false; interrupted := false |}.

Definition TranscriptDelta (t : jsstring) : LiveServerMessage :=
  {| inlineAudio := None; outputTranscription := Some t;
     turnComplete := false; interrupted := false |}.

Definition TurnComplete : LiveServerMessage :=
  {| inlineAudio := None; outputTranscription := None;
     turnComplete := true; interrupted := false |}.

Definition Interrupted : LiveServerMessage :=
  {| inlineAudio := None; outputTranscription := None;
     turnComplete := false; interrupted := true |}.

(** ** [updateLipSync] (lines 48-59) *)

(** An element of the [Uint8Array]. *)
Definition magnitude (b : Byte.byte) : Z := Z.of_N (Byte.to_N b).

(** [dataArray.reduce((a, b) => a + b)]: without an initial value the
    reduction of an empty array throws. *)
Definition reduce_add (dataArray : list Byte.byte) : option Z :=
  match dataArray with
  | [] => None
  | a :: rest =>
      Some (fold_left (fun acc b => acc + magnitude b)%Z rest (magnitude a))
  end.

Definition average (dataArray : list Byte.byte) : option Q :=
  match reduce_add dataArray with
  | Some total => Some (inject_Z total / inject_Z (Z.of_nat (length dataArray)))%Q
  | None => None
  end.

(** [speaking] is the value of [isSpeaking] the callback closed over,
    [dataArray] what [getByteFrequencyData] wrote.  [None]: the callback
    threw before it set anything. *)
Definition updateLipSync (speaking : bool) (dataArray : list Byte.byte)
  (s : App) : option (App * list effect) :=
  if negb (analyserRef s) || negb speaking then
    Some (pure (setAudioVolume 0) s)
  else
    match average dataArray with
    | Some avg =>
        Some ((pure (setAudioVolume (Qmin 1 (avg / 100)%Q)) ;;
               emit RequestAnimationFrame) s)
    | None => None
    end.

(** [analyserRef.current.frequencyBinCount]: half of [fftSize = 64]. *)
Definition frequencyBinCount : nat := 32.

(** ** [connectToZulim] (lines 73-204) *)

(** The error [getUserMedia] rejects with. *)
Record MediaError := {
  name : jsstring;
  message : option jsstring
}.

Inductive getUserMedia_result :=
| Granted
| Rejected (micErr : MediaError).

(** The test of line 102. *)
Definition is_denied (micErr : MediaError) : bool :=
  JsString.eqb (name micErr) (JsString.lit "NotAllowedError")
  || JsString.eqb (name micErr) (JsString.lit "PermissionDeniedError")
  || match message micErr with
     | Some msg => JsString.includes msg (JsString.lit "denied")
     | None => false
     end.

Definition micDeniedMessage : jsstring :=
  JsString.lit "Acesso ao microfone negado pelo sistema. Voc" ++ [234%N]
  ++ JsString.lit " pode continuar apenas por texto.".

Definition connectionErrorMessage : jsstring :=
  JsString.lit "Erro na conex" ++ [227%N]
  ++ JsString.lit "o com a Zulim. Verifique sua internet.".

Definition connectionFailedMessage : jsstring :=
  JsString.lit "Falha na conex" ++ [227%N] ++ JsString.lit "o.".

(** [ai.live.connect] is called; [micStream] tells whether the variable
    [stream] of this call holds a stream. *)
Definition live_connect (micStream : bool) : action :=
  pure (setStream micStream) ;; emit LiveConnect.

(** The body of the [try] block up to the call of [ai.live.connect],
    cut where it waits.  [aistudio] is [Some hasKey] when
    [window.aistudio] exists, [mic] is the outcome of [getUserMedia]
    (asked for only when [forceNoMic] is false). *)

(** Lines 75-83: the error message is cleared, then the key check, which
    waits for [hasSelectedApiKey] (line 79) and [openSelectKey]
    (line 81). *)
Definition connect_enter (aistudio : option bool) : action :=
  pure (setErrorMessage None) ;;
  (match aistudio with
   | Some false => emit OpenSelectKey
   | _ => skip
   end).

(** Lines 85-86: the status, then [initializeAudio], which is waited
    for. *)
Definition connect_prepare : action :=
  pure (setStatus CONNECTING) ;;
  pure initializeAudio.

(** Lines 90-196: the microphone, waited for on line 95, then the
    session. *)
Definition connect_acquire (forceNoMic : bool) (mic : getUserMedia_result)
  : action :=
  if negb forceNoMic then
    match mic with
    | Granted =>
        pure (setIsMicEnabled true) ;;
        live_connect true
    | Rejected micErr =>
        pure (setIsMicEnabled false) ;;
        if is_denied micErr then
          (* return: the session is not opened *)
          pure (setStatus ERROR) ;;
          pure (setErrorMessage (Some micDeniedMessage))
        else live_connect false
    end
  else
    pure (setIsMicEnabled false) ;;
    live_connect false.

(** A connect attempt taken from its first line to the call of
    [ai.live.connect] (or to its early return), no other callback
    running while it waits. *)
Definition connectToZulim (forceNoMic : bool) (aistudio : option bool)
  (mic : getUserMedia_result) : action :=
  connect_enter aistudio ;;
  connect_prepare ;;
  connect_acquire forceNoMic mic.

(** Line 198: the promise of [ai.live.connect] resolved. *)
Definition connect_resolved : action := pure (setSessionRef true).

(** The [catch] of line 199, [errMessage] being [err.message]. *)
Definition connect_catch (errMessage : option jsstring) : action :=
  pure (setStatus ERROR) ;;
  pure (setErrorMessage
          (Some (JsString.or_else errMessage connectionFailedMessage))).

(** [onopen] of a session whose connect attempt holds [micStream] in
    its variable [stream] (lines 123-140). *)
Definition onopen_with (micStream : bool) : action :=
  pure (setStatus CONNECTED) ;;
  (fun s => if micStream && audioContextRef s
            then emit StartCapture s
            else skip s).

(** [onopen] of the session of the latest attempt that reached
    [ai.live.connect]: the event [OnOpen] below.  The opening of an
    older session, whose attempt had another [stream], is
    [onopen_with] of that stream. *)
Definition onopen : action :=
  fun s => onopen_with (stream s) s.

(** [OpenSelectKey] stands for [window.aistudio?.openSelectKey()]. *)
Definition onerror (eMessage : option jsstring) : action :=
  (match eMessage with
   | Some msg =>
       if JsString.includes msg (JsString.lit "Requested entity was not found")
       then emit OpenSelectKey
       else skip
   | None => skip
   end) ;;
  pure (setStatus ERROR) ;;
  pure (setErrorMessage (Some connectionErrorMessage)).

Definition onclose : action := pure (setStatus DISCONNECTED).

(** ** [handleSendText] (lines 206-217) *)

Definition handleSendText : action :=
  fun s =>
    if negb (JsString.truthy (JsString.trim (inputText s)))
       || negb (sessionRef s)
    then skip s
    else
      let userMsg := JsString.trim (inputText s) in
      (pure (setMessages
               (fun prev => prev ++ [{| role := user; text := userMsg |}])) ;;
       pure (setInputText []) ;;
       emit (SendRealtimeText userMsg)) s.

(** ** The component as an event loop *)

Inductive event :=
| Connect (forceNoMic : bool) (aistudio : option bool)
    (mic : getUserMedia_result)
| ConnectResolved
| ConnectCatch (errMessage : option jsstring)
| OnOpen
| OnMessage (now : Q) (m : LiveServerMessage)
| OnError (eMessage : option jsstring)
| OnClose
| SourceEnded (id : nat)
| ChangeInput (value : jsstring)
| SubmitText
| AnimationFrame (speaking : bool) (dataArray : list Byte.byte).

Definition step (e : event) : action :=
  match e with
  | Connect forceNoMic aistudio mic => connectToZulim forceNoMic aistudio mic
  | ConnectResolved => connect_resolved
  | ConnectCatch errMessage => connect_catch errMessage
  | OnOpen => onopen
  | OnMessage now m => onmessage now m
  | OnError eMessage => onerror eMessage
  | OnClose => onclose
  | SourceEnded id => source_ended id
  | ChangeInput value => pure (setInputText value)
  | SubmitText => handleSendText
  | AnimationFrame speaking dataArray =>
      fun s => match updateLipSync speaking dataArray s with
               | Some r => r
               | None => skip s
               end
  end.

Fixpoint run (es : list event) : action :=
  match es with
  | [] => skip
  | e :: rest => step e ;; run rest
  end.

Definition state_after (es : list event) (s : App) : App := fst (run es s).

Definition effects_of (es : list event) (s : App) : list effect :=
  snd (run es s).

(** ** Playback slots *)

Record PlaybackSlot := {
  slot_source : nat;
  scheduledStart : Q;
  slot_duration : Q
}.


(** The slots created by a sequence of calls: one per [source.start]. *)
Fixpoint slots (out : list effect) : list PlaybackSlot :=
  match out with
  | [] => []
  | StartSource id when duration :: rest =>
      {| slot_source := id; scheduledStart := when;
         slot_duration := duration |} :: slots rest
  | _ :: rest => slots rest
  end.

(** A chunk: the output-clock time at which it arrives and the duration
    of its decoded buffer. *)
Definition chunk_events (chunks : list (Q * Q)) : list event :=
  map (fun c => OnMessage (fst c) (AudioChunk (snd c))) chunks.

Local Open Scope Q_scope.

(** A transcript delta: its arrival time and its text. *)
Definition delta_events (deltas : list (Q * jsstring)) : list event :=
  map (fun d => OnMessage (fst d) (TranscriptDelta (snd d))) deltas.



(** An event that carries the interruption flag. *)
Definition is_reset (e : event) : bool :=
  match e with
  | OnMessage _ m => interrupted m
  | _ => false
  end.

(** Durations of decoded buffers are not negative. *)
Definition duration_ok (e : event) : Prop :=
  match e with
  | OnMessage _ m =>
      match inlineAudio m with
      | Some duration => 0 <= duration
      | None => True
      end
  | _ => True
  end.


(** ** Statements about the state *)

Definition speaking_matches_sources (s : App) : Prop :=
  isSpeaking s = true <-> sourcesRef s ≠ ∅.

(** The events that lower the speaking flag: the end of the last active
    source, and a message with the interruption flag. *)
Definition ends_speech (e : event) (s : App) : Prop :=
  match e with
  | SourceEnded id => sourcesRef s ∖ {[id]} = ∅
  | OnMessage _ m => interrupted m = true
  | _ => False
  end.

(** ** [ZulimCharacter] (components/ZulimCharacter.tsx)

    The numbers the component puts into the styles: pixels for the
    mouth, a factor for the eyes, percents for the three bars of the
    badge. *)

Module ZulimCharacter.

Definition mouthHeight (isSpeaking : bool) (audioVolume : Q) : Q :=
  if negb isSpeaking then 4 else 4 + audioVolume * 45.

Definition eyeScale (isSpeaking : bool) (audioVolume : Q) : Q :=
  if negb isSpeaking then 1 else 1 + audioVolume * (1 # 10).

Definition mouthWidth (isSpeaking : bool) (audioVolume : Q) : Q :=
  if isSpeaking then 40 + audioVolume * 20 else 40.

Definition mouthOpacity (isSpeaking : bool) : Q :=
  if isSpeaking then 9 # 10 else 6 # 10.

Definition barHeights (audioVolume : Q) : list Q :=
  [30 + audioVolume * 70; 50 + audioVolume * 50; 40 + audioVolume * 60].

End ZulimCharacter.

(** ** Vocabulary of the further properties *)

(** The events of the connection life cycle. *)
Definition is_connection_event (e : event) : bool :=
  match e with
  | Connect _ _ _ | ConnectResolved | ConnectCatch _
  | OnOpen | OnError _ | OnClose => true
  | _ => false
  end.

Definition is_connect (e : event) : bool :=
  match e with
  | Connect _ _ _ => true
  | _ => false
  end.

(** A connect attempt that asks for the microphone and gets it. *)
Definition mic_granted (e : event) : bool :=
  match e with
  | Connect false _ Granted => true
  | _ => false
  end.

(** The texts handed to the session, in order. *)
Fixpoint sent_texts (out : list effect) : list jsstring :=
  match out with
  | [] => []
  | SendRealtimeText t :: rest => t :: sent_texts rest
  | _ :: rest => sent_texts rest
  end.

(** The texts of the user's messages of a log, in order. *)
Fixpoint user_texts (log : list Message) : list jsstring :=
  match log with
  | [] => []
  | m :: rest =>
      match role m with
      | user => text m :: user_texts rest
      | zulim => user_texts rest
      end
  end.

(** A text with something in it and no white space at either end. *)
Definition well_trimmed (t : jsstring) : Prop :=
  t <> []
  /\ (forall c, head t = Some c -> JsString.is_white_space c = false)
  /\ (forall c, last t = Some c -> JsString.is_white_space c = false).

(** A turn of the agent: its transcript deltas, then the time of its
    turn-complete message. *)
Definition turn_events (turn : list (Q * jsstring) * Q) : list event :=
  delta_events (fst turn) ++ [OnMessage (snd turn) TurnComplete].

Definition turn_text (turn : list (Q * jsstring) * Q) : jsstring :=
  concat (map snd (fst turn)).

Definition finalized (turns : list (list (Q * jsstring) * Q))
  : list Message :=
  flat_map (fun turn =>
              if JsString.truthy (turn_text turn)
              then [{| role := zulim; text := turn_text turn |}]
              else [])
    turns.


(** The events that can give the status a new value. *)
Definition may_set_status (e : event) (new : ConnectionStatus) : Prop :=
  match new with
  | DISCONNECTED => e = OnClose
  | CONNECTING => is_connect e = true
  | CONNECTED => e = OnOpen
  | ERROR =>
      (exists aistudio micErr,
         e = Connect false aistudio (Rejected micErr)
         /\ is_denied micErr = true)
      \/ (exists errMessage, e = ConnectCatch errMessage)
      \/ (exists eMessage, e = OnError eMessage)
  end.

Definition is_resolution (e : event) : bool :=
  match e with
  | ConnectResolved => true
  | _ => false
  end.

(** The three audio refs hold an object together or not at all. *)
Definition audio_refs_together (s : App) : Prop :=
  audioContextRef s = outputAudioContextRef s
  /\ analyserRef s = outputAudioContextRef s.

(** The sum of the entries of a [Uint8Array]. *)
Definition byte_sum (dataArray : list Byte.byte) : Z :=
  fold_right (fun b acc => Z.of_N (Byte.to_N b) + acc)%Z 0%Z dataArray.

(** ** The component between its callbacks

    [run] takes every callback to completion.  Two pieces of the source
    do not run that way: the message handler waits for [decodeAudioData]
    (line 148), and the lip-sync callback lives on in
    [requestAnimationFrame] after the render that made it (lines
    48-65). *)

(** What the message handler does after its audio branch. *)
Definition after_audio (m : LiveServerMessage) : action :=
  transcription_branch m ;;
  turnComplete_branch m ;;
  interrupted_branch m.

(** The handler up to the point where it first stops: at the [await] of
    line 148 ([true]) when the message has audio and the output context
    exists, at its end ([false]) otherwise. *)
Definition onmessage_begin (now : Q) (m : LiveServerMessage) (s : App)
  : App * list effect * bool :=
  match inlineAudio m with
  | Some _ =>
      if outputAudioContextRef s
      then (audio_arrive now s, true)
      else (after_audio m s, false)
  | None => (after_audio m s, false)
  end.

(** The rest of a handler that stopped at the [await], once the decode
    has settled: with the buffer, or with a rejection, which ends the
    handler there. *)
Definition onmessage_resume (m : LiveServerMessage) (decoded : bool)
  : action :=
  if decoded then
    match inlineAudio m with
    | Some duration => audio_schedule duration ;; after_audio m
    | None => skip
    end
  else skip.

Record Runtime := mkRuntime {
  appState : App;
  (* handlers stopped at the [await] of line 148, oldest first *)
  awaiting : list LiveServerMessage;
  (* [isSpeaking] of the last committed render *)
  rendered : bool;
  (* the [updateLipSync] callbacks waiting in [requestAnimationFrame]:
     for each, the [isSpeaking] it closed over *)
  armed : list bool
}.

Definition initialRuntime : Runtime :=
  {| appState := initialApp; awaiting := []; rendered := false; armed := [] |}.

(** The callback asked for another frame (line 58). *)
Definition rearms (out : list effect) : bool :=
  existsb (fun e => match e with
                    | RequestAnimationFrame => true
                    | _ => false
                    end) out.

(** One call of the [updateLipSync] that closed over [speaking]: the
    state it leaves, and itself again when it asked for another frame
    (inside the callback the name [updateLipSync] is the callback
    itself).  A call that throws leaves the state and asks for
    nothing. *)
Definition call_updateLipSync (speaking : bool)
  (dataArray : list Byte.byte) (s : App) : App * list bool :=
  match updateLipSync speaking dataArray s with
  | Some (s', out) => (s', if rearms out then [speaking] else [])
  | None => (s, [])
  end.

(** A committed render (lines 48-65).  [useCallback] gives the render a
    callback that closes over the render's [isSpeaking]; the effect runs
    when [isSpeaking] differs from the one of the previous render, and
    calls that callback when [isSpeaking] is true. *)
Definition commit (dataArray : list Byte.byte) (r : Runtime) : Runtime :=
  let speaking := isSpeaking (appState r) in
  if Bool.eqb speaking (rendered r) then r
  else if speaking then
    let (s', again) := call_updateLipSync true dataArray (appState r) in
    mkRuntime s' (awaiting r) true (armed r ++ again)
  else mkRuntime (appState r) (awaiting r) false (armed r).

(** An animation frame: every waiting callback is called once. *)
Fixpoint call_armed (dataArray : list Byte.byte) (waiting : list bool)
  (s : App) : App * list bool :=
  match waiting with
  | [] => (s, [])
  | speaking :: rest =>
      let (s1, again1) := call_updateLipSync speaking dataArray s in
      let (s2, again2) := call_armed dataArray rest s1 in
      (s2, again1 ++ again2)
  end.

Definition frame (dataArray : list Byte.byte) (r : Runtime) : Runtime :=
  let (s', again) := call_armed dataArray (armed r) (appState r) in
  mkRuntime s' (awaiting r) (rendered r) again.

Inductive runtime_event :=
| Callback (e : event)
    (* a callback taken to completion *)
| Arrives (now : Q) (m : LiveServerMessage)
    (* [onmessage] up to its [await] or its end *)
| Decoded (k : nat)
    (* the decode of the [k]-th waiting handler resolved *)
| DecodeFailed (k : nat)
    (* the decode of the [k]-th waiting handler rejected *)
| Commit (dataArray : list Byte.byte)
| Frame (dataArray : list Byte.byte).

Definition with_app (r : Runtime) (res : App * list effect)
  : Runtime * list effect :=
  (mkRuntime (fst res) (awaiting r) (rendered r) (armed r), snd res).

Definition settle (k : nat) (decoded : bool) (r : Runtime)
  : Runtime * list effect :=
  match awaiting r !! k with
  | Some m =>
      let res := onmessage_resume m decoded (appState r) in
      (mkRuntime (fst res) (delete k (awaiting r)) (rendered r) (armed r),
       snd res)
  | None => (r, [])
  end.

(** The calls of [requestAnimationFrame] are kept in [armed], not in the
    list of calls; animation frames are taken by [Frame] only. *)
Definition runtime_step (e : runtime_event) (r : Runtime)
  : Runtime * list effect :=
  match e with
  | Callback (AnimationFrame _ _) => (r, [])
  | Callback e => with_app r (step e (appState r))
  | Arrives now m =>
      let '(s', out, stopped) := onmessage_begin now m (appState r) in
      (mkRuntime s' (if stopped then awaiting r ++ [m] else awaiting r)
         (rendered r) (armed r), out)
  | Decoded k => settle k true r
  | DecodeFailed k => settle k false r
  | Commit dataArray => (commit dataArray r, [])
  | Frame dataArray => (frame dataArray r, [])
  end.

Fixpoint runtime_run (es : list runtime_event) (r : Runtime)
  : Runtime * list effect :=
  match es with
  | [] => (r, [])
  | e :: rest =>
      let (r1, o1) := runtime_step e r in
      let (r2, o2) := runtime_run rest r1 in
      (r2, o1 ++ o2)
  end.

(** * Properties *)

(** Unfolds a handler down to the state setters. *)
Ltac unfold_handler :=
  cbv [step onmessage audio_branch audio_arrive audio_schedule
       transcription_branch turnComplete_branch interrupted_branch
       source_ended AudioChunk TranscriptDelta TurnComplete Interrupted
       inlineAudio outputTranscription turnComplete interrupted
       andThen pure emit skip].

(** Unfolds every callback down to the state setters. *)
Ltac unfold_callbacks :=
  cbv [step connectToZulim connect_enter connect_prepare connect_acquire
       live_connect connect_resolved connect_catch
       onopen onopen_with onerror onclose handleSendText updateLipSync];
  unfold_handler.

(** Splits on every test met on the way through a callback. *)
Ltac split_tests :=
  cbv beta iota zeta;
  repeat match goal with
         | |- context [match ?x with _ => _ end] =>
             lazymatch x with
             | context [match _ with _ => _ end] => fail
             | _ => destruct x eqn:?; cbv beta iota zeta
             end
         end.

(** ** Checks of the string model *)

Example trim_strips_both_ends :
  JsString.trim (JsString.lit "  oi ") = JsString.lit "oi".
Proof. reflexivity. Qed.

Example trim_of_blanks_is_empty :
  JsString.trim [32; 160; 9; 8195]%N = [].
Proof. reflexivity. Qed.

Example includes_finds_denied :
  JsString.includes (JsString.lit "Permission denied by system")
    (JsString.lit "denied") = true.
Proof. reflexivity. Qed.

Example not_found_is_not_denied :
  is_denied {| name := JsString.lit "NotFoundError";
               message := Some (JsString.lit "Requested device not found") |}
  = false.
Proof. reflexivity. Qed.

(** ** A first run *)

Example three_chunks :
  map scheduledStart
    (slots (effects_of (chunk_events [(2, 1#2); (2, 1#2); (2, 1#2)]%Q)
              (initializeAudio initialApp)))
  = [2; 2 + (1#2); 2 + (1#2) + (1#2)]%Q.
Proof. reflexivity. Qed.

(** ** Running events *)

Lemma run_cons (e : event) (es : list event) (s : App) :
  run (e :: es) s
  = (state_after es (fst (step e s)),
     snd (step e s) ++ effects_of es (fst (step e s))).
Proof.
  unfold state_after, effects_of. simpl. unfold andThen.
  destruct (step e s) as [s1 o1]. simpl.
  now destruct (run es s1).
Qed.

Lemma state_after_cons (e : event) (es : list event) (s : App) :
  state_after (e :: es) s = state_after es (fst (step e s)).
Proof. unfold state_after at 1. now rewrite run_cons. Qed.

Lemma effects_of_cons (e : event) (es : list event) (s : App) :
  effects_of (e :: es) s = snd (step e s) ++ effects_of es (fst (step e s)).
Proof. unfold effects_of at 1. now rewrite run_cons. Qed.

Lemma state_after_app (es1 es2 : list event) (s : App) :
  state_after (es1 ++ es2) s = state_after es2 (state_after es1 s).
Proof.
  revert s. induction es1 as [|e es1 IH]; intros s; [reflexivity|].
  simpl app. now rewrite !state_after_cons, IH.
Qed.

Lemma slots_app (o1 o2 : list effect) :
  slots (o1 ++ o2) = slots o1 ++ slots o2.
Proof.
  induction o1 as [|e o1 IH]; [reflexivity|].
  destruct e; simpl; now rewrite ?IH.
Qed.

(** ** The scheduler on one audio chunk *)

















(** ** The playback clock *)

(** C5. No event of the component makes the playback clock
    [nextStartTime] smaller, except a message that carries the
    interruption flag, which sets it to 0. *)
Theorem playback_clock_monotone (e : event) (s : App) :
  duration_ok e ->
  let s' := fst (step e s) in
  (is_reset e = false -> nextStartTimeRef s <= nextStartTimeRef s')
  /\ (is_reset e = true -> nextStartTimeRef s' = 0)
  /\ (nextStartTimeRef s' < nextStartTimeRef s -> is_reset e = true).
Proof.
  intros Hd s'.
  assert (Hmono : is_reset e = false ->
                  nextStartTimeRef s <= nextStartTimeRef s').
  { unfold s'. destruct e as [f a mic| | | |now m| | | | | |sp data];
      try (intros _; unfold_callbacks; split_tests; simpl; apply Qle_refl).
    destruct m as [[d|] tr tc intr]; simpl in Hd |- *; intros ->;
      unfold_callbacks; split_tests; simpl;
      try apply Qle_refl;
      pose proof (Q.le_max_l (nextStartTimeRef s) now); lra. }
  split; [exact Hmono|]. split.
  - unfold s'. destruct e as [| | | |now [a tr tc intr]| | | | | |];
      try discriminate.
    unfold is_reset, interrupted. intros ->.
    unfold_callbacks. split_tests; reflexivity.
  - intros Hlt. destruct (is_reset e); [reflexivity|].
    specialize (Hmono eq_refl). lra.
Qed.

Lemma playback_clock_monotone_witness :
  let s := initializeAudio initialApp in
  let e := OnMessage 3 (AudioChunk (1#2)) in
  duration_ok e
  /\ nextStartTimeRef s <= nextStartTimeRef (fst (step e s)).
Proof.
  intros s e.
  assert (Hd : duration_ok e) by (simpl; discriminate).
  split; [exact Hd|].
  exact (proj1 (playback_clock_monotone e s Hd) eq_refl).
Defined.

(** ** The speaking flag and the active set *)

Lemma add_nonempty (id : nat) (X : gset nat) : {[id]} ∪ X ≠ ∅.
Proof.
  intros Heq. apply (not_elem_of_empty (C := gset nat) id).
  rewrite <- Heq. apply elem_of_union_l. now apply elem_of_singleton.
Qed.

Lemma size_zero_iff (X : gset nat) : size X = 0%nat <-> X = ∅.
Proof.
  split.
  - intros H. apply leibniz_equiv. now apply size_empty_iff.
  - intros ->. apply size_empty.
Qed.

Lemma onmessage_speaking (now : Q) (m : LiveServerMessage) (s : App) :
  speaking_matches_sources s ->
  speaking_matches_sources (fst (onmessage now m s)).
Proof.
  unfold speaking_matches_sources. intros Hinv.
  destruct m as [a tr tc intr]. unfold_handler. split_tests; simpl;
    try exact Hinv; split; try congruence; try discriminate; intros _;
    apply add_nonempty.
Qed.

Lemma source_ended_speaking (id : nat) (s : App) :
  speaking_matches_sources s ->
  speaking_matches_sources (fst (source_ended id s)).
Proof.
  unfold speaking_matches_sources. intros Hinv.
  unfold_handler. simpl. case_bool_decide as Hsize; simpl.
  - apply size_zero_iff in Hsize. split; [discriminate | congruence].
  - rewrite size_zero_iff in Hsize. split; [intros _; exact Hsize|].
    intros _. apply Hinv. intros Hempty. apply Hsize.
    rewrite Hempty. apply leibniz_equiv, difference_disjoint, disjoint_empty_l.
Qed.

Lemma step_speaking (e : event) (s : App) :
  speaking_matches_sources s ->
  speaking_matches_sources (fst (step e s)).
Proof.
  destruct e; try (intros H; unfold speaking_matches_sources;
                   unfold_callbacks; split_tests; simpl; exact H).
  - apply onmessage_speaking.
  - apply source_ended_speaking.
Qed.

Lemma run_speaking (es : list event) (s : App) :
  speaking_matches_sources s ->
  speaking_matches_sources (state_after es s).
Proof.
  revert s. induction es as [|e es IH]; intros s H; [exact H|].
  rewrite state_after_cons. now apply IH, step_speaking.
Qed.

(** As long as every message is handled to completion, which is what
    [run] does, [isSpeaking] is true exactly when the set of active
    sources is not empty; a scheduled chunk raises the flag; and an event
    lowers the raised flag exactly when it is the end of the last active
    source or an interruption.  [speaking_breaks_across_the_await] below
    takes the handler apart at its [await]. *)
Theorem speaking_iff_active_sources :
  (forall es : list event,
     let s := state_after es initialApp in
     isSpeaking s = true <-> sourcesRef s ≠ ∅)
  /\ (forall (s : App) (now duration : Q),
        outputAudioContextRef s = true ->
        let s' := fst (onmessage now (AudioChunk duration) s) in
        isSpeaking s' = true /\ sourcesRef s' ≠ ∅)
  /\ (forall (e : event) (s : App),
        isSpeaking s = true ->
        (isSpeaking (fst (step e s)) = false <-> ends_speech e s)).
Proof.
  split; [|split].
  - intros es. apply run_speaking. split; [discriminate|].
    intros H. now contradict H.
  - intros s now d ctx. unfold_handler. rewrite ctx. simpl.
    split; [reflexivity | apply add_nonempty].
  - intros e s Hs.
    destruct e as [| | | |now [a tr tc intr]| | |id| | |];
      try (unfold_callbacks; split_tests; simpl; rewrite ?Hs;
           (split; [intros Hf; discriminate Hf | intros []])).
    + unfold ends_speech, interrupted. unfold_handler.
      split_tests; simpl; rewrite ?Hs; split; congruence.
    + unfold ends_speech. unfold_handler. simpl.
      case_bool_decide as Hsize; simpl; rewrite size_zero_iff in Hsize.
      * split; [intros _; exact Hsize | reflexivity].
      * rewrite Hs. split; [intros Hf; discriminate Hf | contradiction].
Qed.

Lemma speaking_iff_active_sources_witness :
  let s := initializeAudio initialApp in
  let s1 := fst (onmessage 0 (AudioChunk (1#2)) s) in
  (isSpeaking s1 = true /\ sourcesRef s1 ≠ ∅)
  /\ (isSpeaking (fst (step (SourceEnded 0) s1)) = false
      <-> ends_speech (SourceEnded 0) s1).
Proof.
  intros s s1. split.
  - apply (proj1 (proj2 speaking_iff_active_sources) s 0 (1#2)).
    reflexivity.
  - apply (proj2 (proj2 speaking_iff_active_sources) (SourceEnded 0) s1).
    reflexivity.
Defined.

(** ** Interruption *)

(** C4 (as the code has it). A message with the interruption flag,
    whatever else it carries and however many sources are active, leaves
    the active set empty, the playback clock at 0 and [isSpeaking] false,
    and has called [stop] on every source that was active; the volume is
    not written by the handler. *)
Theorem interruption_clears_playback
  (now : Q) (m : LiveServerMessage) (s : App) :
  interrupted m = true ->
  let s' := fst (onmessage now m s) in
  let out := snd (onmessage now m s) in
  sourcesRef s' = ∅
  /\ nextStartTimeRef s' = 0
  /\ isSpeaking s' = false
  /\ (exists stopped : gset nat,
        In (StopSources stopped) out /\ sourcesRef s ⊆ stopped)
  /\ audioVolume s' = audioVolume s.
Proof.
  destruct m as [a tr tc intr]. simpl. intros ->.
  unfold_handler. split_tests; simpl;
    (repeat split; try reflexivity);
    eexists;
    (split; [solve [repeat first [left; reflexivity | right]] |]);
    try reflexivity; apply union_subseteq_r.
Qed.

Lemma interruption_clears_playback_witness :
  let s := state_after (chunk_events [(0, 1); (0, 1); (0, 1)])
             (initializeAudio initialApp) in
  interrupted Interrupted = true
  /\ sourcesRef (fst (onmessage (1#2) Interrupted s)) = ∅
  /\ nextStartTimeRef (fst (onmessage (1#2) Interrupted s)) = 0
  /\ isSpeaking (fst (onmessage (1#2) Interrupted s)) = false.
Proof.
  intros s.
  pose proof (interruption_clears_playback (1#2) Interrupted s eq_refl)
    as (H1 & H2 & H3 & _).
  repeat split; assumption.
Defined.

(** The volume sampled while a chunk plays is still there after the
    interruption: the SpeakingSignal is {false, 16/25}, not {false, 0}. *)
Lemma interruption_keeps_volume_counterexample :
  let before :=
    state_after [Connect true None Granted; OnOpen;
                 OnMessage 0 (AudioChunk 1);
                 AnimationFrame true (repeat Byte.x40 frequencyBinCount)]
      initialApp in
  let after := fst (onmessage (1#2) Interrupted before) in
  sourcesRef after = ∅
  /\ isSpeaking after = false
  /\ audioVolume after == 16 # 25
  /\ ~ audioVolume after == 0.
Proof.
  intros before after. split; [| split; [| split]].
  - vm_compute. reflexivity.
  - vm_compute. reflexivity.
  - vm_compute. reflexivity.
  - vm_compute. intros Hzero. discriminate Hzero.
Qed.

(** ** Transcript *)

Lemma deltas_buffer (deltas : list (Q * jsstring)) (s : App) :
  currentOutputTranscriptionRef (state_after (delta_events deltas) s)
  = currentOutputTranscriptionRef s ++ concat (map snd deltas).
Proof.
  revert s. induction deltas as [|[now t] rest IH]; intros s.
  - simpl. now rewrite app_nil_r.
  - simpl delta_events. rewrite state_after_cons, IH. simpl.
    now rewrite <- app_assoc.
Qed.

Lemma deltas_messages (deltas : list (Q * jsstring)) (s : App) :
  messages (state_after (delta_events deltas) s) = messages s.
Proof.
  revert s. induction deltas as [|[now t] rest IH]; intros s.
  - reflexivity.
  - simpl delta_events. now rewrite state_after_cons, IH.
Qed.

Lemma turn_complete_messages (now : Q) (s : App) :
  messages (fst (onmessage now TurnComplete s))
  = messages s ++
    (if JsString.truthy (currentOutputTranscriptionRef s)
     then [{| role := zulim; text := currentOutputTranscriptionRef s |}]
     else []).
Proof.
  unfold_handler. destruct (JsString.truthy _); simpl;
    [reflexivity | now rewrite app_nil_r].
Qed.

Lemma turn_complete_buffer (now : Q) (s : App) :
  currentOutputTranscriptionRef (fst (onmessage now TurnComplete s)) = [].
Proof. unfold_handler. now destruct (JsString.truthy _). Qed.

(** C6. Transcript deltas are appended to the buffer in arrival order; a
    turn-complete that follows them appends to the message log exactly one
    [zulim] message holding the concatenation of the deltas when that
    concatenation is not empty, and nothing when it is; the buffer is
    empty afterwards in both cases. *)
Theorem transcript_finalised_on_turn_complete
  (s : App) (deltas : list (Q * jsstring)) (now : Q) :
  currentOutputTranscriptionRef s = [] ->
  let fullText := concat (map snd deltas) in
  let s1 := state_after (delta_events deltas) s in
  let s2 := state_after (delta_events deltas ++ [OnMessage now TurnComplete]) s in
  currentOutputTranscriptionRef s1 = fullText
  /\ messages s1 = messages s
  /\ messages s2 = messages s ++
       (if JsString.truthy fullText
        then [{| role := zulim; text := fullText |}]
        else [])
  /\ currentOutputTranscriptionRef s2 = [].
Proof.
  intros Hempty fullText s1 s2. unfold s1, s2, fullText.
  rewrite state_after_app. unfold state_after at 3 5. simpl run.
  unfold andThen, skip. simpl.
  rewrite deltas_buffer, deltas_messages, Hempty. simpl.
  repeat split.
  - destruct (onmessage now TurnComplete _) eqn:E. simpl.
    change a with (fst (a, l)). rewrite <- E.
    now rewrite turn_complete_messages, deltas_buffer, deltas_messages, Hempty.
  - destruct (onmessage now TurnComplete _) eqn:E. simpl.
    change a with (fst (a, l)). rewrite <- E.
    apply turn_complete_buffer.
Qed.

Lemma transcript_finalised_on_turn_complete_witness :
  let deltas := [(0, JsString.lit "Ol"); (1, [225; 44; 32]%N);
                 (2, JsString.lit "mundo")] in
  let s2 := state_after (delta_events deltas ++ [OnMessage 3 TurnComplete])
              initialApp in
  currentOutputTranscriptionRef initialApp = []
  /\ messages s2
     = [{| role := zulim;
           text := JsString.lit "Ol" ++ [225%N] ++ JsString.lit ", mundo" |}]
  /\ currentOutputTranscriptionRef s2 = [].
Proof.
  intros deltas s2. split; [reflexivity|].
  destruct (transcript_finalised_on_turn_complete initialApp deltas 3 eq_refl)
    as (_ & _ & Hmessages & Hbuffer).
  split; [exact Hmessages | exact Hbuffer].
Defined.

Example turn_complete_without_deltas :
  messages (state_after [OnMessage 0 TurnComplete] initialApp) = [].
Proof. reflexivity. Qed.

Lemma interrupted_branch_transcript (m : LiveServerMessage) (s : App) :
  currentOutputTranscriptionRef (fst (interrupted_branch m s))
  = currentOutputTranscriptionRef s
  /\ messages (fst (interrupted_branch m s)) = messages s.
Proof. unfold_handler. now destruct m as [a tr tc []]. Qed.

(** C10. The interruption branch of the handler writes neither the
    transcript buffer nor the message log; the text of the deltas received
    before an interruption is therefore still in the buffer, and the
    turn-complete that follows emits it as a [zulim] message. *)
Theorem interruption_keeps_transcript :
  (forall (m : LiveServerMessage) (s : App),
     let s' := fst (interrupted_branch m s) in
     currentOutputTranscriptionRef s' = currentOutputTranscriptionRef s
     /\ messages s' = messages s)
  /\ (forall (now : Q) (s : App),
        let s' := fst (onmessage now Interrupted s) in
        currentOutputTranscriptionRef s' = currentOutputTranscriptionRef s
        /\ messages s' = messages s)
  /\ (forall (s : App) (deltas : list (Q * jsstring)) (now1 now2 : Q),
        currentOutputTranscriptionRef s = [] ->
        JsString.truthy (concat (map snd deltas)) = true ->
        let s' := state_after
                    (delta_events deltas
                     ++ [OnMessage now1 Interrupted; OnMessage now2 TurnComplete])
                    s in
        messages s'
        = messages s ++ [{| role := zulim; text := concat (map snd deltas) |}]).
Proof.
  split; [|split].
  - intros m s. apply interrupted_branch_transcript.
  - intros now s. unfold_handler. split; reflexivity.
  - intros s deltas now1 now2 Hempty Htruthy s'. unfold s'.
    rewrite state_after_app, !state_after_cons.
    change (state_after [] ?x) with x. cbv [step].
    rewrite turn_complete_messages.
    assert (Hi : forall s0,
               currentOutputTranscriptionRef (fst (onmessage now1 Interrupted s0))
               = currentOutputTranscriptionRef s0
               /\ messages (fst (onmessage now1 Interrupted s0)) = messages s0)
      by (intros s0; unfold_handler; split; reflexivity).
    destruct (Hi (state_after (delta_events deltas) s)) as [-> ->].
    rewrite deltas_buffer, deltas_messages, Hempty.
    change ([] ++ concat (map snd deltas)) with (concat (map snd deltas)).
    now rewrite Htruthy.
Qed.

Lemma interruption_keeps_transcript_witness :
  let deltas := [(0, JsString.lit "Oi"); (1, JsString.lit " mundo")] in
  currentOutputTranscriptionRef initialApp = []
  /\ JsString.truthy (concat (map snd deltas)) = true
  /\ messages (state_after
                 (delta_events deltas
                  ++ [OnMessage 2 Interrupted; OnMessage 3 TurnComplete])
                 initialApp)
     = [{| role := zulim; text := JsString.lit "Oi mundo" |}].
Proof.
  intros deltas. split; [reflexivity|]. split; [reflexivity|].
  exact (proj2 (proj2 interruption_keeps_transcript)
           initialApp deltas 2 3 eq_refl eq_refl).
Defined.

(** ** Amplitude *)

Lemma magnitude_bounds (b : Byte.byte) : (0 <= magnitude b <= 255)%Z.
Proof. unfold magnitude. pose proof (Byte.to_N_bounded b). lia. Qed.

Lemma fold_add_bounds (rest : list Byte.byte) (init : Z) :
  (init <= fold_left (fun acc b => acc + magnitude b) rest init
   <= init + 255 * Z.of_nat (length rest))%Z.
Proof.
  revert init. induction rest as [|b rest IH]; intros init; simpl length.
  - simpl. lia.
  - simpl fold_left. specialize (IH (init + magnitude b)%Z).
    pose proof (magnitude_bounds b). lia.
Qed.

Lemma fold_add_silence (rest : list Byte.byte) (init : Z) :
  Forall (fun b => b = Byte.x00) rest ->
  fold_left (fun acc b => acc + magnitude b)%Z rest init = init.
Proof.
  intros Hz. revert init.
  induction Hz as [|b rest -> _ IH]; intros init; [reflexivity|].
  simpl. rewrite IH. unfold magnitude. simpl. lia.
Qed.

Lemma average_defined (dataArray : list Byte.byte) :
  dataArray <> [] ->
  exists total : Z,
    reduce_add dataArray = Some total
    /\ average dataArray
       = Some (inject_Z total / inject_Z (Z.of_nat (length dataArray)))
    /\ (0 <= total <= 255 * Z.of_nat (length dataArray))%Z
    /\ (Forall (fun b => b = Byte.x00) dataArray -> total = 0%Z).
Proof.
  destruct dataArray as [|a rest]; [congruence|]. intros _.
  unfold average, reduce_add. eexists. split; [reflexivity|].
  split; [reflexivity|].
  split.
  - pose proof (fold_add_bounds rest (magnitude a)).
    pose proof (magnitude_bounds a). simpl length. lia.
  - intros Hz. inversion Hz as [|b l Hb Hrest]; subst.
    now rewrite fold_add_silence.
Qed.

(** The quotient of a total in [0, 255 * n] by [n > 0]. *)
Lemma quotient_bounds (total n : Z) :
  (0 < n)%Z -> (0 <= total <= 255 * n)%Z ->
  0 <= inject_Z total / inject_Z n <= 255.
Proof.
  intros Hn [Hlo Hhi].
  rewrite Zlt_Qlt in Hn. rewrite Zle_Qle in Hlo, Hhi.
  assert (Hpos : 0 < inject_Z n) by exact Hn.
  split.
  - apply Qle_shift_div_l; [exact Hpos|]. rewrite Qmult_0_l.
    exact Hlo.
  - apply Qle_shift_div_r; [exact Hpos|].
    change 255 with (inject_Z 255). rewrite <- inject_Z_mult.
    exact Hhi.
Qed.

Lemma saturate_bounds (x : Q) : 0 <= x -> 0 <= Qmin 1 x <= 1.
Proof.
  intros Hx. split; [| apply Q.le_min_l].
  apply Q.min_glb; [discriminate | exact Hx].
Qed.

Example silence_has_no_volume :
  option_map (fun r => audioVolume (fst r))
    (updateLipSync true (repeat Byte.x00 frequencyBinCount)
       (initializeAudio initialApp))
  = Some (0 # 3200).
Proof. reflexivity. Qed.

Example empty_snapshot_throws :
  updateLipSync true [] (initializeAudio initialApp) = None.
Proof. reflexivity. Qed.

(** ** Sending text *)

(** Once stored, the session handle stays: only the resolution of the
    connect promise writes [sessionRef], and it writes a session. *)
Lemma sessionRef_step (e : event) (s : App) :
  sessionRef (fst (step e s))
  = match e with
    | ConnectResolved => true
    | _ => sessionRef s
    end.
Proof.
  destruct e; unfold_callbacks; split_tests; reflexivity.
Qed.

(** C8 (as the code has it). [handleSendText] tests the trimmed input and
    the stored session handle, not the connection status: with a
    non-empty trimmed text and a stored handle it appends the user
    message, clears the input and forwards the trimmed text to the
    session; otherwise it changes nothing and calls nothing.  The handle
    is stored when the connect promise resolves and no event removes
    it. *)
Theorem send_text_gated_by_session_handle :
  (forall s : App,
     JsString.trim (inputText s) = [] \/ sessionRef s = false ->
     handleSendText s = (s, []))
  /\ (forall s : App,
        JsString.trim (inputText s) <> [] ->
        sessionRef s = true ->
        handleSendText s
        = (setInputText []
             (setMessages
                (fun prev => prev ++ [{| role := user;
                                         text := JsString.trim (inputText s) |}])
                s),
           [SendRealtimeText (JsString.trim (inputText s))]))
  /\ (forall (e : event) (s : App),
        sessionRef s = true -> sessionRef (fst (step e s)) = true)
  /\ (forall (e : event) (s : App),
        sessionRef s = false -> sessionRef (fst (step e s)) = true ->
        e = ConnectResolved).
Proof.
  split; [|split; [|split]].
  - intros s H. unfold handleSendText.
    destruct H as [-> | ->]; [reflexivity|].
    now rewrite orb_true_r.
  - intros s Htext Hsession. unfold handleSendText.
    rewrite Hsession.
    destruct (JsString.trim (inputText s)) as [|c r]; [congruence|].
    reflexivity.
  - intros e s Hs. rewrite sessionRef_step. now destruct e.
  - intros e s Hs. rewrite sessionRef_step.
    destruct e; congruence.
Qed.

Lemma send_text_gated_by_session_handle_witness :
  let s := setInputText (JsString.lit "  oi ")
             (state_after [Connect true None Granted; OnOpen; ConnectResolved]
                initialApp) in
  JsString.trim (inputText s) <> []
  /\ sessionRef s = true
  /\ snd (handleSendText s) = [SendRealtimeText (JsString.lit "oi")].
Proof.
  intros s.
  assert (Htext : JsString.trim (inputText s) <> []) by discriminate.
  split; [exact Htext|]. split; [reflexivity|].
  rewrite (proj1 (proj2 send_text_gated_by_session_handle) s Htext eq_refl).
  reflexivity.
Defined.

(** After the transport closed the status is DISCONNECTED, and a
    submitted text is still logged and handed to the closed session. *)
Lemma send_after_close_counterexample :
  let s := state_after [Connect true None Granted; OnOpen; ConnectResolved;
                        OnClose; ChangeInput (JsString.lit "oi")]
             initialApp in
  status s = DISCONNECTED
  /\ snd (handleSendText s) = [SendRealtimeText (JsString.lit "oi")]
  /\ messages (fst (handleSendText s))
     = messages s ++ [{| role := user; text := JsString.lit "oi" |}].
Proof. repeat split. Qed.

(** ** Connecting *)

(** C1 (as the code has it). When the microphone is asked for and
    refused with a permission error, the attempt stops: status ERROR, the
    microphone flag off, the message that offers to continue by text, and
    [ai.live.connect] is not called, so no handle is stored by this
    attempt.  The session opens in text-only mode when the microphone is
    not asked for, or when its acquisition fails for another reason: on
    open the status is CONNECTED with the microphone flag off and no
    capture, and once the handle is stored a non-empty text is sent. *)
Theorem mic_denial_stops_connect :
  (forall (aistudio : option bool) (micErr : MediaError) (s : App),
     is_denied micErr = true ->
     let s' := fst (connectToZulim false aistudio (Rejected micErr) s) in
     let out := snd (connectToZulim false aistudio (Rejected micErr) s) in
     status s' = ERROR
     /\ isMicEnabled s' = false
     /\ errorMessage s' = Some micDeniedMessage
     /\ ~ In LiveConnect out
     /\ sessionRef s' = sessionRef s)
  /\ (forall (forceNoMic : bool) (aistudio : option bool)
        (mic : getUserMedia_result) (s : App) (value : jsstring),
        forceNoMic = true
        \/ (exists micErr, mic = Rejected micErr /\ is_denied micErr = false) ->
        JsString.trim value <> [] ->
        let es := [Connect forceNoMic aistudio mic; OnOpen; ConnectResolved;
                   ChangeInput value] in
        let s' := state_after es s in
        status s' = CONNECTED
        /\ isMicEnabled s' = false
        /\ In LiveConnect (effects_of es s)
        /\ ~ In StartCapture (effects_of es s)
        /\ snd (handleSendText s') = [SendRealtimeText (JsString.trim value)]).
Proof.
  split.
  - intros aistudio micErr s Hdenied. unfold connectToZulim.
    unfold_callbacks. simpl negb. rewrite Hdenied.
    destruct aistudio as [[|]|]; simpl;
      (split; [| split; [| split; [| split]]]); try reflexivity;
      intuition discriminate.
  - intros forceNoMic aistudio mic s value Hmode Htext es s'.
    assert (Hrun : run es s
                   = (setInputText value
                        (setSessionRef true
                           (setStatus CONNECTED
                              (setStream false
                                 (setIsMicEnabled false
                                    (initializeAudio
                                       (setStatus CONNECTING
                                          (setErrorMessage None s))))))),
                      match aistudio with
                      | Some false => [OpenSelectKey; LiveConnect]
                      | _ => [LiveConnect]
                      end)).
    { unfold es. simpl run. unfold_callbacks.
      destruct Hmode as [-> | (micErr & -> & Hother)];
        [| destruct forceNoMic; simpl negb; rewrite ?Hother];
        destruct aistudio as [[|]|]; reflexivity. }
    unfold s', state_after, effects_of. rewrite Hrun. simpl fst. simpl snd.
    split; [reflexivity|]. split; [reflexivity|]. split; [|split].
    + destruct aistudio as [[|]|]; simpl; auto.
    + destruct aistudio as [[|]|]; simpl; intuition discriminate.
    + unfold handleSendText. simpl inputText. simpl sessionRef.
      destruct (JsString.trim value) as [|c r]; [congruence | reflexivity].
Qed.

Lemma mic_denial_stops_connect_witness :
  let denied := {| name := JsString.lit "NotAllowedError";
                   message := Some (JsString.lit "Permission denied") |} in
  let missing := {| name := JsString.lit "NotFoundError";
                    message := Some (JsString.lit "Requested device not found") |} in
  (is_denied denied = true
   /\ status (fst (connectToZulim false None (Rejected denied) initialApp))
      = ERROR)
  /\ (is_denied missing = false
      /\ status (state_after [Connect false None (Rejected missing); OnOpen;
                              ConnectResolved; ChangeInput (JsString.lit "oi")]
                   initialApp)
         = CONNECTED).
Proof.
  intros denied missing. split.
  - split; [reflexivity|].
    exact (proj1 (proj1 mic_denial_stops_connect None denied initialApp eq_refl)).
  - split; [reflexivity|].
    refine (proj1 (proj2 mic_denial_stops_connect false None (Rejected missing)
                     initialApp (JsString.lit "oi") _ _)).
    + right. exists missing. split; reflexivity.
    + discriminate.
Defined.

(** The microphone is asked for and refused: the status is ERROR, not
    CONNECTED, no session is opened, and a text typed next is not sent. *)
Lemma mic_denied_counterexample :
  let denied := {| name := JsString.lit "NotAllowedError";
                   message := Some (JsString.lit "Permission denied") |} in
  let s := state_after [Connect false None (Rejected denied);
                        ChangeInput (JsString.lit "oi")] initialApp in
  status s = ERROR
  /\ status s <> CONNECTED
  /\ isMicEnabled s = false
  /\ effects_of [Connect false None (Rejected denied)] initialApp = []
  /\ handleSendText s = (s, []).
Proof.
  intros denied s. split; [| split; [| split; [| split]]];
    try reflexivity. discriminate.
Qed.

(** * Further properties of the component *)

(** ** Invariants of runs *)

Lemma run_invariant (P : App -> Prop) :
  (forall e s, P s -> P (fst (step e s))) ->
  forall es s, P s -> P (state_after es s).
Proof.
  intros Hstep es. induction es as [|e es IH]; intros s Hs; [exact Hs|].
  rewrite state_after_cons. now apply IH, Hstep.
Qed.

Lemma run_effects_forall (P : effect -> Prop) :
  (forall e s, Forall P (snd (step e s))) ->
  forall es s, Forall P (effects_of es s).
Proof.
  intros Hstep es. induction es as [|e es IH]; intros s; [constructor|].
  rewrite effects_of_cons. apply Forall_app. split; [apply Hstep | apply IH].
Qed.

(** ** Audio set-up *)

Lemma step_audio_refs (e : event) (s : App) :
  audio_refs_together s -> audio_refs_together (fst (step e s)).
Proof.
  unfold audio_refs_together. destruct s as [? ? ? ? ? ? ? ? ctx]. simpl.
  intros [-> ->]. destruct ctx.
  all: destruct e; unfold_callbacks; split_tests; simpl; split; reflexivity.
Qed.

(** X1. [initializeAudio] can be called again without effect, and in
    every state the component reaches the input context, the output
    context and the analyser exist together: whenever the audio branch of
    the message handler runs, the analyser it connects the source to is
    there. *)
Theorem audio_refs_created_together :
  (forall s : App, initializeAudio (initializeAudio s) = initializeAudio s)
  /\ (forall es : list event,
        let s := state_after es initialApp in
        audioContextRef s = outputAudioContextRef s
        /\ analyserRef s = outputAudioContextRef s).
Proof.
  split.
  - intros s. reflexivity.
  - intros es. apply (run_invariant audio_refs_together step_audio_refs).
    split; reflexivity.
Qed.

(** ** Connection life cycle *)

(** X2. When the microphone is asked for and granted, the attempt calls
    [ai.live.connect] once, and the opening of the transport then starts
    the capture once: the status is CONNECTED, the microphone flag is on
    and no error message is left. *)
Theorem granted_microphone_starts_capture
  (aistudio : option bool) (s : App) :
  let es := [Connect false aistudio Granted; OnOpen] in
  let s' := state_after es s in
  status s' = CONNECTED
  /\ isMicEnabled s' = true
  /\ errorMessage s' = None
  /\ effects_of es s
     = match aistudio with
       | Some false => [OpenSelectKey; LiveConnect; StartCapture]
       | _ => [LiveConnect; StartCapture]
       end.
Proof.
  destruct aistudio as [[|]|]; repeat split.
Qed.

Lemma step_stream (e : event) (s : App) :
  mic_granted e = false ->
  stream s = false ->
  stream (fst (step e s)) = false /\ ~ In StartCapture (snd (step e s)).
Proof.
  intros Hg Hs.
  destruct e as [[|] a [|micErr]| | | | | | | | | |]; try discriminate Hg;
    unfold_callbacks; split_tests;
    try (simpl in *; rewrite ?Hs in *; discriminate); simpl;
    (split; [assumption || reflexivity | intuition discriminate]).
Qed.

(** X3. Capture of the microphone never starts in a run in which no
    connect attempt was granted the microphone: text-only attempts and
    refused ones leave the stream empty, whatever else happens. *)
Theorem no_capture_without_granted_microphone
  (es : list event) (s : App) :
  stream s = false ->
  Forall (fun e => mic_granted e = false) es ->
  stream (state_after es s) = false
  /\ ~ In StartCapture (effects_of es s).
Proof.
  revert s. induction es as [|e es IH]; intros s Hs Hes.
  - split; [exact Hs | intros []].
  - inversion Hes as [|e' es' He Hrest]; subst.
    destruct (step_stream e s He Hs) as [Hs1 Hno1].
    destruct (IH _ Hs1 Hrest) as [Hs2 Hno2].
    rewrite state_after_cons, effects_of_cons. split; [exact Hs2|].
    intros Hin. apply in_app_or in Hin. tauto.
Qed.

Lemma no_capture_without_granted_microphone_witness :
  let denied := {| name := JsString.lit "NotAllowedError"; message := None |} in
  let es := [Connect false None (Rejected denied); Connect true None Granted;
             OnOpen; ConnectResolved] in
  stream initialApp = false
  /\ Forall (fun e => mic_granted e = false) es
  /\ ~ In StartCapture (effects_of es initialApp).
Proof.
  intros denied es.
  assert (Hes : Forall (fun e => mic_granted e = false) es)
    by (repeat constructor).
  split; [reflexivity|]. split; [exact Hes|].
  exact (proj2 (no_capture_without_granted_microphone es initialApp
                  eq_refl Hes)).
Defined.

(** X5. The two halves of the component do not touch each other's
    state: messages, ended sources, typing, sending and animation frames
    change neither the status, the error message, the microphone flag
    nor the session handle; connection events change neither the message
    log, the input, the transcript buffer, the active sources, the
    playback clock, the speaking flag nor the volume. *)
Theorem connection_and_conversation_are_separate (e : event) (s : App) :
  let s' := fst (step e s) in
  (is_connection_event e = false ->
   status s' = status s
   /\ errorMessage s' = errorMessage s
   /\ isMicEnabled s' = isMicEnabled s
   /\ sessionRef s' = sessionRef s
   /\ stream s' = stream s)
  /\ (is_connection_event e = true ->
      messages s' = messages s
      /\ inputText s' = inputText s
      /\ currentOutputTranscriptionRef s' = currentOutputTranscriptionRef s
      /\ sourcesRef s' = sourcesRef s
      /\ nextStartTimeRef s' = nextStartTimeRef s
      /\ isSpeaking s' = isSpeaking s
      /\ audioVolume s' = audioVolume s).
Proof.
  split; intros He; destruct e; try discriminate He;
    unfold_callbacks; split_tests; simpl; repeat split.
Qed.

Lemma connection_and_conversation_are_separate_witness :
  let s := state_after [Connect true None Granted; OnOpen] initialApp in
  is_connection_event (OnMessage 0 Interrupted) = false
  /\ status (fst (step (OnMessage 0 Interrupted) s)) = status s.
Proof.
  intros s. split; [reflexivity|].
  exact (proj1 (proj1 (connection_and_conversation_are_separate
                         (OnMessage 0 Interrupted) s) eq_refl)).
Defined.

(** ** The message log and the texts sent *)

Lemma truthy_nonempty (t : jsstring) : JsString.truthy t = true -> t <> [].
Proof. destruct t; [discriminate | discriminate]. Qed.

Lemma send_guard (s : App) :
  negb (JsString.truthy (JsString.trim (inputText s))) || negb (sessionRef s)
  = false ->
  JsString.trim (inputText s) <> [] /\ sessionRef s = true.
Proof.
  intros H. apply orb_false_elim in H as [Ht Hs].
  apply negb_false_iff in Ht, Hs. split; [now apply truthy_nonempty | exact Hs].
Qed.

(** What one event adds to the log. *)
Lemma step_messages (e : event) (s : App) :
  exists added : list Message,
    messages (fst (step e s)) = messages s ++ added
    /\ Forall (fun m => text m <> []) added
    /\ user_texts added = sent_texts (snd (step e s)).
Proof.
  destruct e as [| | | |now [a tr tc intr]| | | | | |];
    try (exists []; unfold_callbacks; split_tests; simpl;
         rewrite ?app_nil_r; repeat split; constructor).
  - unfold_handler. split_tests; simpl;
      first [ eexists [_]; split; [reflexivity|]; split;
              [ constructor; [| constructor]; simpl;
                apply truthy_nonempty; assumption
              | reflexivity ]
            | exists []; rewrite app_nil_r; repeat split; constructor ].
  - unfold step, handleSendText.
    destruct (negb (JsString.truthy (JsString.trim (inputText s)))
              || negb (sessionRef s)) eqn:Hguard; unfold_handler; simpl.
    + exists []. rewrite app_nil_r. repeat split; constructor.
    + apply send_guard in Hguard as [Htext _].
      eexists [_]. split; [reflexivity|]. split; [| reflexivity].
      constructor; [exact Htext | constructor].
Qed.

Lemma user_texts_app (l1 l2 : list Message) :
  user_texts (l1 ++ l2) = user_texts l1 ++ user_texts l2.
Proof.
  induction l1 as [|m l1 IH]; [reflexivity|].
  simpl. destruct (role m); simpl; now rewrite IH.
Qed.

Lemma sent_texts_app (o1 o2 : list effect) :
  sent_texts (o1 ++ o2) = sent_texts o1 ++ sent_texts o2.
Proof.
  induction o1 as [|e o1 IH]; [reflexivity|].
  destruct e; simpl; now rewrite ?IH.
Qed.

Lemma run_messages (es : list event) (s : App) :
  exists added : list Message,
    messages (state_after es s) = messages s ++ added
    /\ Forall (fun m => text m <> []) added
    /\ user_texts added = sent_texts (effects_of es s).
Proof.
  revert s. induction es as [|e es IH]; intros s.
  - exists []. rewrite app_nil_r. repeat split; constructor.
  - destruct (step_messages e s) as (a1 & H1 & Hne1 & Hs1).
    destruct (IH (fst (step e s))) as (a2 & H2 & Hne2 & Hs2).
    exists (a1 ++ a2). rewrite state_after_cons, effects_of_cons.
    rewrite H2, H1, <- app_assoc. split; [reflexivity|]. split.
    + apply Forall_app. now split.
    + now rewrite user_texts_app, sent_texts_app, Hs1, Hs2.
Qed.

(** X6. The message log only grows: whatever the events, the log
    afterwards is the log before followed by new messages, and none of the
    new messages has an empty text. *)
Theorem message_log_is_append_only (es : list event) (s : App) :
  exists added : list Message,
    messages (state_after es s) = messages s ++ added
    /\ Forall (fun m => text m <> []) added.
Proof.
  destruct (run_messages es s) as (added & Hlog & Hne & _).
  now exists added.
Qed.

(** X7. The log and the transport agree: over any run, the texts of the
    user messages in the log are those that were there before followed by
    exactly the texts handed to [sendRealtimeInput], in the same order. *)
Theorem user_messages_are_the_texts_sent (es : list event) (s : App) :
  user_texts (messages (state_after es s))
  = user_texts (messages s) ++ sent_texts (effects_of es s).
Proof.
  destruct (run_messages es s) as (added & Hlog & _ & Hsent).
  now rewrite Hlog, user_texts_app, Hsent.
Qed.

(** *** Trimming *)

Lemma trimStart_head (s : jsstring) (c : N) (r : jsstring) :
  JsString.trimStart s = c :: r -> JsString.is_white_space c = false.
Proof.
  induction s as [|a s IH]; simpl; [discriminate|].
  destruct (JsString.is_white_space a) eqn:Ha; [exact IH|].
  intros [= <- _]. exact Ha.
Qed.

Lemma trimStart_suffix (s : jsstring) :
  exists pre : jsstring, s = pre ++ JsString.trimStart s.
Proof.
  induction s as [|a s [pre IH]]; [now exists []|].
  simpl. destruct (JsString.is_white_space a).
  - exists (a :: pre). simpl. now rewrite <- IH.
  - now exists [].
Qed.

Lemma trimEnd_prefix (s : jsstring) :
  exists post : jsstring, s = JsString.trimEnd s ++ post.
Proof.
  unfold JsString.trimEnd.
  destruct (trimStart_suffix (rev s)) as [pre Hpre].
  exists (rev pre). rewrite <- rev_app_distr, <- Hpre.
  now rewrite rev_involutive.
Qed.

Lemma trim_well_trimmed (s : jsstring) :
  JsString.trim s <> [] -> well_trimmed (JsString.trim s).
Proof.
  intros Hne. split; [exact Hne|]. split.
  - intros c Hc. unfold JsString.trim in *.
    destruct (trimEnd_prefix (JsString.trimStart s)) as [post Hpost].
    destruct (JsString.trimEnd (JsString.trimStart s)) as [|c' r];
      [congruence|].
    simpl in Hc. injection Hc as ->.
    simpl in Hpost. now apply trimStart_head in Hpost.
  - intros c Hc. unfold JsString.trim, JsString.trimEnd in *.
    destruct (JsString.trimStart (rev (JsString.trimStart s)))
      as [|c' r] eqn:Hrev; [simpl in Hne; congruence|].
    simpl in Hc. rewrite last_snoc in Hc. injection Hc as ->.
    now apply trimStart_head in Hrev.
Qed.

(** X8. Every text handed to the session, in any run, is a trimmed
    text: it is not empty and it neither starts nor ends with a white
    space character. *)
Theorem texts_sent_are_trimmed (es : list event) (s : App) (t : jsstring) :
  In t (sent_texts (effects_of es s)) -> well_trimmed t.
Proof.
  revert s. induction es as [|e es IH]; intros s Hin; [destruct Hin|].
  rewrite effects_of_cons, sent_texts_app in Hin.
  apply in_app_or in Hin as [Hin | Hin]; [| now apply (IH _ Hin)].
  destruct e; try (revert Hin; unfold_callbacks; split_tests; simpl;
                   intuition discriminate).
  revert Hin. unfold step, handleSendText.
  destruct (negb (JsString.truthy (JsString.trim (inputText s)))
              || negb (sessionRef s)) eqn:Hguard; unfold_handler; simpl.
  - intros [].
  - intros [<- | []]. apply trim_well_trimmed.
    now apply send_guard in Hguard.
Qed.

Lemma texts_sent_are_trimmed_witness :
  let es := [Connect true None Granted; OnOpen; ConnectResolved;
             ChangeInput (JsString.lit "  o que e um quasar?  ");
             SubmitText] in
  In (JsString.lit "o que e um quasar?") (sent_texts (effects_of es initialApp))
  /\ well_trimmed (JsString.lit "o que e um quasar?").
Proof.
  intros es.
  assert (Hin : In (JsString.lit "o que e um quasar?")
                  (sent_texts (effects_of es initialApp)))
    by (left; reflexivity).
  split; [exact Hin|].
  exact (texts_sent_are_trimmed es initialApp _ Hin).
Defined.

(** X9. A text is sent once: [handleSendText] empties the input when it
    sends, so submitting again right away changes nothing and sends
    nothing. *)
Theorem resubmitting_sends_nothing (s : App) :
  handleSendText (fst (handleSendText s)) = (fst (handleSendText s), []).
Proof.
  unfold handleSendText at 2 3.
  destruct (negb (JsString.truthy (JsString.trim (inputText s)))
              || negb (sessionRef s)) eqn:Hguard.
  - unfold skip. simpl. unfold handleSendText. now rewrite Hguard.
  - unfold_handler. simpl. reflexivity.
Qed.

(** ** Playback *)




Lemma step_clock_nonneg (e : event) (s : App) :
  duration_ok e ->
  0 <= nextStartTimeRef s ->
  0 <= nextStartTimeRef (fst (step e s))
  /\ Forall (fun p => 0 <= scheduledStart p) (slots (snd (step e s))).
Proof.
  intros Hd Hs.
  destruct e as [| | | |now [[d|] tr tc intr]| | | | | |];
    try (unfold_callbacks; split_tests; simpl;
         (split; [first [exact Hs | apply Qle_refl] | constructor])).
  simpl in Hd. pose proof (Q.le_max_l (nextStartTimeRef s) now) as Hmax.
  unfold_handler. split_tests; simpl; split;
    try (repeat constructor; simpl; lra); try exact Hs; try lra.
Qed.

(** X11. [source.start] is never given a negative time: in every run
    from the initial state in which no buffer has a negative duration,
    the playback clock stays at or above 0 and so does the start of every
    slot. *)
Theorem sources_never_start_before_zero (es : list event) :
  Forall duration_ok es ->
  0 <= nextStartTimeRef (state_after es initialApp)
  /\ Forall (fun p => 0 <= scheduledStart p)
       (slots (effects_of es initialApp)).
Proof.
  assert (Hgen : forall s, 0 <= nextStartTimeRef s -> Forall duration_ok es ->
                   0 <= nextStartTimeRef (state_after es s)
                   /\ Forall (fun p => 0 <= scheduledStart p)
                        (slots (effects_of es s))).
  { induction es as [|e es IH]; intros s Hs Hes.
    - split; [exact Hs | constructor].
    - inversion Hes as [|e' es' He Hrest]; subst.
      destruct (step_clock_nonneg e s He Hs) as [Hs1 Hp1].
      destruct (IH _ Hs1 Hrest) as [Hs2 Hp2].
      rewrite state_after_cons, effects_of_cons, slots_app.
      split; [exact Hs2 | apply Forall_app; now split]. }
  intros Hes. apply Hgen; [apply Qle_refl | exact Hes].
Qed.

Lemma sources_never_start_before_zero_witness :
  let es := [Connect true None Granted; OnMessage (-1) (AudioChunk 1);
             OnMessage 3 Interrupted; OnMessage 4 (AudioChunk (1#2))] in
  Forall duration_ok es
  /\ Forall (fun p => 0 <= scheduledStart p)
       (slots (effects_of es initialApp)).
Proof.
  intros es.
  assert (Hes : Forall duration_ok es)
    by (repeat constructor; simpl; discriminate).
  split; [exact Hes|].
  exact (proj2 (sources_never_start_before_zero es Hes)).
Defined.

Lemma ended_sources (ids : list nat) (s : App) :
  sourcesRef (state_after (map SourceEnded ids) s)
  = sourcesRef s ∖ list_to_set ids.
Proof.
  revert s. induction ids as [|id ids IH]; intros s.
  - simpl. now rewrite difference_empty_L.
  - simpl map. rewrite state_after_cons, IH.
    assert (Hone : sourcesRef (fst (step (SourceEnded id) s))
                   = sourcesRef s ∖ {[id]}).
    { unfold_handler. simpl. now case_bool_decide. }
    rewrite Hone. simpl list_to_set.
    now rewrite difference_difference_l_L.
Qed.

(** X13. Speech ends when its sources have ended: once the 'ended'
    event of every active source has been handled, in any order and
    possibly among 'ended' events of other sources, the active set is
    empty and the speaking flag is down. *)
Theorem speaking_stops_when_all_sources_ended (ids : list nat) (s : App) :
  speaking_matches_sources s ->
  sourcesRef s ⊆ list_to_set ids ->
  let s' := state_after (map SourceEnded ids) s in
  sourcesRef s' = ∅ /\ isSpeaking s' = false.
Proof.
  intros Hinv Hsub s'.
  assert (Hempty : sourcesRef s' = ∅).
  { unfold s'. rewrite ended_sources.
    now apply subseteq_empty_difference_L. }
  split; [exact Hempty|].
  pose proof (run_speaking (map SourceEnded ids) s Hinv) as Hinv'.
  fold s' in Hinv'. unfold speaking_matches_sources in Hinv'.
  destruct (isSpeaking s'); [|reflexivity].
  now destruct (proj1 Hinv' eq_refl).
Qed.

Lemma speaking_stops_when_all_sources_ended_witness :
  let s := state_after (chunk_events [(0, 1); (0, 1); (0, 1)])
             (initializeAudio initialApp) in
  let s' := state_after (map SourceEnded [2; 0; 7; 1]%nat) s in
  isSpeaking s = true
  /\ sourcesRef s' = ∅ /\ isSpeaking s' = false.
Proof.
  intros s s'. split; [reflexivity|].
  apply (speaking_stops_when_all_sources_ended [2; 0; 7; 1]%nat s).
  - apply run_speaking. split; [discriminate|]. intros H. now contradict H.
  - apply (bool_decide_unpack _). vm_compute. exact I.
Defined.

(** ** Turns of the transcript *)

Lemma one_turn (turn : list (Q * jsstring) * Q) (s : App) :
  currentOutputTranscriptionRef s = [] ->
  messages (state_after (turn_events turn) s)
  = messages s ++ finalized [turn]
  /\ currentOutputTranscriptionRef (state_after (turn_events turn) s) = [].
Proof.
  intros Hempty. unfold turn_events.
  rewrite state_after_app, state_after_cons.
  change (state_after [] ?x) with x. cbv [step].
  rewrite turn_complete_messages, turn_complete_buffer.
  rewrite deltas_buffer, deltas_messages, Hempty.
  split; [| reflexivity].
  unfold finalized, turn_text. simpl. now rewrite app_nil_r.
Qed.

(** X14. Turns do not leak into each other: after any number of turns,
    each made of transcript deltas closed by a turn-complete, the log has
    gained one [zulim] message per turn with text, in the order of the
    turns, each holding the text of its own turn only, and the buffer is
    empty again. *)
Theorem turns_are_finalized_one_by_one
  (turns : list (list (Q * jsstring) * Q)) (s : App) :
  currentOutputTranscriptionRef s = [] ->
  let s' := state_after (concat (map turn_events turns)) s in
  messages s' = messages s ++ finalized turns
  /\ currentOutputTranscriptionRef s' = [].
Proof.
  revert s. induction turns as [|turn turns IH]; intros s Hempty.
  - simpl. now rewrite app_nil_r.
  - simpl map. simpl concat. cbv zeta. rewrite state_after_app.
    destruct (one_turn turn s Hempty) as [Hlog Hbuf].
    destruct (IH _ Hbuf) as [Hlog' Hbuf'].
    split; [| exact Hbuf'].
    rewrite Hlog', Hlog, <- app_assoc. f_equal.
    unfold finalized. simpl. now rewrite app_nil_r.
Qed.

Lemma turns_are_finalized_one_by_one_witness :
  let turns := [([(0, JsString.lit "Oi"); (1, JsString.lit "!")], 2);
                ([], 3);
                ([(4, JsString.lit "Tchau")], 5)] in
  currentOutputTranscriptionRef initialApp = []
  /\ messages (state_after (concat (map turn_events turns)) initialApp)
     = [{| role := zulim; text := JsString.lit "Oi!" |};
        {| role := zulim; text := JsString.lit "Tchau" |}].
Proof.
  intros turns. split; [reflexivity|].
  exact (proj1 (turns_are_finalized_one_by_one turns initialApp eq_refl)).
Defined.

(** ** The face *)

(** X15. What [ZulimCharacter] draws from a volume between 0 and 1: a
    mouth between 4 and 49 pixels high and between 40 and 60 pixels wide,
    eyes scaled between 1 and 1.1, and three bars that stay between 30 and
    100 percent; full volume gives the 49 pixel mouth and fills the three
    bars.  While not speaking the mouth and the eyes do not depend on the
    volume. *)
Theorem character_stays_in_range (isSpeaking : bool) (audioVolume : Q) :
  0 <= audioVolume <= 1 ->
  4 <= ZulimCharacter.mouthHeight isSpeaking audioVolume <= 49
  /\ 40 <= ZulimCharacter.mouthWidth isSpeaking audioVolume <= 60
  /\ 1 <= ZulimCharacter.eyeScale isSpeaking audioVolume <= 11 # 10
  /\ Forall (fun h => 30 <= h <= 100) (ZulimCharacter.barHeights audioVolume)
  /\ ZulimCharacter.mouthHeight true 1 == 49
  /\ Forall (fun h => h == 100) (ZulimCharacter.barHeights 1)
  /\ ZulimCharacter.mouthHeight false audioVolume = 4
  /\ ZulimCharacter.mouthWidth false audioVolume = 40
  /\ ZulimCharacter.eyeScale false audioVolume = 1.
Proof.
  intros [Hlo Hhi].
  unfold ZulimCharacter.mouthHeight, ZulimCharacter.mouthWidth,
    ZulimCharacter.eyeScale, ZulimCharacter.barHeights.
  destruct isSpeaking; simpl negb; cbv iota;
    repeat match goal with
           | |- _ /\ _ => split
           | |- Forall _ _ => constructor
           end; try reflexivity; lra.
Qed.

Lemma character_stays_in_range_witness :
  0 <= (16 # 25) <= 1
  /\ 4 <= ZulimCharacter.mouthHeight true (16 # 25) <= 49.
Proof.
  assert (Hv : 0 <= (16 # 25) <= 1) by (split; discriminate).
  split; [exact Hv|].
  exact (proj1 (character_stays_in_range true (16 # 25) Hv)).
Defined.

Lemma updateLipSync_volume (speaking : bool) (dataArray : list Byte.byte)
  (s : App) (r : App * list effect) :
  updateLipSync speaking dataArray s = Some r ->
  0 <= audioVolume (fst r) <= 1.
Proof.
  unfold updateLipSync.
  destruct (negb (analyserRef s) || negb speaking).
  - intros [= <-]. simpl. split; discriminate.
  - destruct dataArray as [|b rest]; [discriminate|].
    destruct (average_defined (b :: rest)) as (total & _ & -> & Hb & _);
      [discriminate|].
    intros [= <-]. unfold_handler. simpl fst.
    change (audioVolume (setAudioVolume ?v s)) with v.
    assert (Hlen : (0 < Z.of_nat (length (b :: rest)))%Z)
      by (simpl length; lia).
    destruct (quotient_bounds total _ Hlen Hb) as [Hlo _].
    simpl length in *.
    set (avg := inject_Z total / inject_Z (Z.of_nat (S (length rest))))
      in *.
    assert (Hv : avg / 100 == avg * (1 # 100)) by reflexivity.
    set (v := avg / 100) in *. apply saturate_bounds. lra.
Qed.

Lemma step_volume (e : event) (s : App) :
  0 <= audioVolume s <= 1 -> 0 <= audioVolume (fst (step e s)) <= 1.
Proof.
  intros Hs.
  destruct e as [| | | | | | | | | |speaking dataArray];
    try (unfold_callbacks; split_tests; simpl; exact Hs).
  simpl step.
  destruct (updateLipSync speaking dataArray s) as [r|] eqn:Hr;
    [now apply (updateLipSync_volume speaking dataArray s) | exact Hs].
Qed.

(** X16. The volume the component hands to the face is always between
    0 and 1, in every state it reaches, so the face drawn from the state
    is always in range: the mouth is at most 49 pixels high and no bar of
    the badge exceeds 100 percent. *)
Theorem volume_and_face_always_in_range (es : list event) :
  let s := state_after es initialApp in
  0 <= audioVolume s <= 1
  /\ 4 <= ZulimCharacter.mouthHeight (isSpeaking s) (audioVolume s) <= 49
  /\ Forall (fun h => 30 <= h <= 100)
       (ZulimCharacter.barHeights (audioVolume s)).
Proof.
  intros s.
  assert (Hv : 0 <= audioVolume s <= 1).
  { apply (run_invariant (fun s => 0 <= audioVolume s <= 1) step_volume).
    split; discriminate. }
  split; [exact Hv|]. destruct Hv as [Hlo Hhi].
  unfold ZulimCharacter.mouthHeight, ZulimCharacter.barHeights.
  split.
  - destruct (isSpeaking s); simpl negb; cbv iota; split; lra.
  - repeat constructor; lra.
Qed.

(** ** Messages with several contents *)


(** ** Status *)

(** X18. The status changes only for a reason: it becomes CONNECTED only
    when the transport opens, DISCONNECTED only when it closes, CONNECTING
    only in a connect attempt, and ERROR only when the microphone was
    asked for and refused, when the attempt threw, or when the transport
    reported an error. *)
Theorem status_changes_have_a_cause (e : event) (s : App) :
  status (fst (step e s)) <> status s ->
  may_set_status e (status (fst (step e s))).
Proof.
  destruct e as [[|] a [|micErr]| | | | | | | | | |];
    unfold_callbacks; split_tests; try (simpl in *; discriminate);
    simpl; intros Hne; try congruence; try reflexivity;
    try (right; left; eexists; reflexivity);
    try (right; right; eexists; reflexivity).
  all: left; do 2 eexists; split; [reflexivity | assumption].
Qed.

Lemma status_changes_have_a_cause_witness :
  let s := state_after [Connect true None Granted] initialApp in
  status (fst (step OnOpen s)) <> status s
  /\ may_set_status OnOpen (status (fst (step OnOpen s))).
Proof.
  intros s.
  assert (Hne : status (fst (step OnOpen s)) <> status s) by discriminate.
  split; [exact Hne|].
  exact (status_changes_have_a_cause OnOpen s Hne).
Defined.

(** ** While a connect attempt waits *)

(** With [window.aistudio] present the attempt waits after it has cleared
    the error message and before it sets the status: started from the
    error panel, the component is then in status ERROR without a
    message. *)
Example error_without_message_during_key_check :
  let denied := {| name := JsString.lit "NotAllowedError"; message := None |} in
  let s := state_after [Connect false (Some true) (Rejected denied)]
             initialApp in
  status s = ERROR
  /\ errorMessage s = Some micDeniedMessage
  /\ status (fst (connect_enter (Some true) s)) = ERROR
  /\ errorMessage (fst (connect_enter (Some true) s)) = None.
Proof. repeat split. Qed.

(** ** Sending before the session exists *)

Lemma step_without_session (e : event) (s : App) :
  is_resolution e = false ->
  sessionRef s = false ->
  sessionRef (fst (step e s)) = false
  /\ sent_texts (snd (step e s)) = []
  /\ messages (fst (step e s)) = messages s
     \/ sessionRef (fst (step e s)) = false
        /\ sent_texts (snd (step e s)) = []
        /\ exists t, messages (fst (step e s))
                     = messages s ++ [{| role := zulim; text := t |}].
Proof.
  intros He Hs.
  destruct e as [| | | |now [a tr tc intr]| | | | | |]; try discriminate He;
    try (left; unfold_callbacks; split_tests; simpl; repeat split;
         assumption).
  - unfold_handler. split_tests; simpl;
      first [ left; repeat split; assumption
            | right; split; [assumption|]; split; [reflexivity|];
              eexists; reflexivity ].
  - left. unfold step, handleSendText. rewrite Hs, orb_true_r.
    repeat split. exact Hs.
Qed.

(** X19. Nothing is sent before the session exists: in a run from the
    initial state in which the connect promise has not resolved, no text
    is handed to the transport and no user message enters the log,
    whatever is typed and submitted and whatever the status says. *)
Theorem nothing_sent_before_session_resolves (es : list event) :
  Forall (fun e => is_resolution e = false) es ->
  sent_texts (effects_of es initialApp) = []
  /\ user_texts (messages (state_after es initialApp)) = [].
Proof.
  assert (Hgen : forall s, sessionRef s = false ->
                   Forall (fun e => is_resolution e = false) es ->
                   sent_texts (effects_of es s) = []
                   /\ user_texts (messages (state_after es s))
                      = user_texts (messages s)).
  { induction es as [|e es IH]; intros s Hs Hes; [now split|].
    inversion Hes as [|e' es' He Hrest]; subst.
    rewrite effects_of_cons, sent_texts_app, state_after_cons.
    destruct (step_without_session e s He Hs)
      as [(Hs1 & Hsent & Hlog) | (Hs1 & Hsent & t & Hlog)];
      destruct (IH _ Hs1 Hrest) as [Hsent' Hlog'];
      rewrite Hsent, Hsent', Hlog', Hlog; (split; [reflexivity|]).
    - reflexivity.
    - rewrite user_texts_app. simpl. now rewrite app_nil_r. }
  intros Hes. now apply (Hgen initialApp).
Qed.

Lemma nothing_sent_before_session_resolves_witness :
  let es := [Connect true None Granted; OnOpen;
             ChangeInput (JsString.lit "oi"); SubmitText] in
  Forall (fun e => is_resolution e = false) es
  /\ status (state_after es initialApp) = CONNECTED
  /\ sent_texts (effects_of es initialApp) = [].
Proof.
  intros es.
  assert (Hes : Forall (fun e => is_resolution e = false) es)
    by (repeat constructor).
  split; [exact Hes|]. split; [reflexivity|].
  exact (proj1 (nothing_sent_before_session_resolves es Hes)).
Defined.

(** * The component between its callbacks *)

(** ** One sample of the amplitude *)

Lemma fold_add_sum (rest : list Byte.byte) (init : Z) :
  fold_left (fun acc b => acc + magnitude b)%Z rest init
  = (init + byte_sum rest)%Z.
Proof.
  revert init. induction rest as [|b rest IH]; intros init; simpl.
  - lia.
  - rewrite IH. unfold magnitude. lia.
Qed.

Lemma average_is_the_mean (dataArray : list Byte.byte) :
  dataArray <> [] ->
  average dataArray
  = Some (inject_Z (byte_sum dataArray)
          / inject_Z (Z.of_nat (length dataArray))).
Proof.
  destruct dataArray as [|a rest]; [congruence|]. intros _.
  unfold average, reduce_add. rewrite fold_add_sum. reflexivity.
Qed.

Lemma byte_sum_bounds (lo hi : Z) (dataArray : list Byte.byte) :
  Forall (fun b => (lo <= Z.of_N (Byte.to_N b) <= hi)%Z) dataArray ->
  (lo * Z.of_nat (length dataArray) <= byte_sum dataArray
   <= hi * Z.of_nat (length dataArray))%Z.
Proof.
  induction 1 as [|b rest Hb _ IH]; simpl byte_sum; simpl length; lia.
Qed.

(** X20. One call of [updateLipSync] that finds the analyser and closed
    over a true [isSpeaking], on a non-empty array of magnitudes: the
    volume becomes [min(1, average / 100)], the average being the sum of
    the bytes over their number, and another frame is asked for.  That
    volume is in [0, 1]; it is 0 for an all-zero array, at most one half
    when no byte exceeds 50, and exactly 1 when the average reaches 100,
    as it does when every byte is 100 or more. *)
Theorem one_sample_is_normalised (dataArray : list Byte.byte) (s : App) :
  analyserRef s = true ->
  dataArray <> [] ->
  exists avg : Q,
    average dataArray = Some avg
    /\ avg * inject_Z (Z.of_nat (length dataArray))
       == inject_Z (byte_sum dataArray)
    /\ updateLipSync true dataArray s
       = Some (setAudioVolume (Qmin 1 (avg / 100)) s, [RequestAnimationFrame])
    /\ 0 <= Qmin 1 (avg / 100) <= 1
    /\ (Forall (fun b => b = Byte.x00) dataArray -> Qmin 1 (avg / 100) == 0)
    /\ (Forall (fun b => (Byte.to_N b <= 50)%N) dataArray ->
        Qmin 1 (avg / 100) <= 1 # 2)
    /\ (100 <= avg -> Qmin 1 (avg / 100) == 1)
    /\ (Forall (fun b => (100 <= Byte.to_N b)%N) dataArray ->
        Qmin 1 (avg / 100) == 1).
Proof.
  intros Han Hne.
  pose proof (average_is_the_mean dataArray Hne) as Havg.
  set (n := Z.of_nat (length dataArray)) in *.
  assert (Hn : (0 < n)%Z)
    by (unfold n; destruct dataArray; [congruence | simpl length; lia]).
  assert (Hnq : 0 < inject_Z n) by (rewrite Zlt_Qlt in Hn; exact Hn).
  set (total := byte_sum dataArray) in *.
  exists (inject_Z total / inject_Z n).
  assert (Hmean : inject_Z total / inject_Z n * inject_Z n == inject_Z total).
  { field. intros Hz. rewrite Hz in Hnq. discriminate Hnq. }
  assert (Hrange : forall lo hi : Z,
             Forall (fun b => (lo <= Z.of_N (Byte.to_N b) <= hi)%Z) dataArray ->
             inject_Z lo <= inject_Z total / inject_Z n <= inject_Z hi).
  { intros lo hi Hall. apply byte_sum_bounds in Hall. fold n total in Hall.
    destruct Hall as [Hlo Hhi]. rewrite Zle_Qle, inject_Z_mult in Hlo, Hhi.
    split.
    - apply Qle_shift_div_l; assumption.
    - apply Qle_shift_div_r; assumption. }
  assert (Hbytes : inject_Z 0 <= inject_Z total / inject_Z n <= inject_Z 255).
  { apply Hrange. clear. induction dataArray as [|b l IH]; constructor;
      [| exact IH]. pose proof (Byte.to_N_bounded b). lia. }
  set (avg := inject_Z total / inject_Z n) in *.
  assert (Hv : avg / 100 == avg * (1 # 100)) by reflexivity.
  set (v := avg / 100) in *.
  assert (Hmin : (1 < v /\ Qmin 1 v == 1) \/ (v <= 1 /\ Qmin 1 v == v))
    by apply Q.min_spec.
  change (inject_Z 0) with 0 in Hbytes. change (inject_Z 255) with 255 in Hbytes.
  split; [exact Havg|]. split; [exact Hmean|]. split.
  { unfold updateLipSync. rewrite Han, Havg. reflexivity. }
  split; [apply saturate_bounds; lra|]. split; [|split; [|split]].
  - intros Hz.
    assert (Hall : Forall (fun b => (0 <= Z.of_N (Byte.to_N b) <= 0)%Z)
                     dataArray)
      by (eapply Forall_impl; [exact Hz|]; intros b ->; simpl; lia).
    apply Hrange in Hall. change (inject_Z 0) with 0 in Hall.
    destruct Hmin as [[? ->] | [? ->]]; lra.
  - intros Hlow.
    assert (Hall : Forall (fun b => (0 <= Z.of_N (Byte.to_N b) <= 50)%Z)
                     dataArray)
      by (eapply Forall_impl; [exact Hlow|]; intros b Hb; simpl in Hb; lia).
    apply Hrange in Hall. change (inject_Z 0) with 0 in Hall.
    change (inject_Z 50) with 50 in Hall.
    destruct Hmin as [[? ->] | [? ->]]; lra.
  - intros Hceil. destruct Hmin as [[? ->] | [? ->]]; lra.
  - intros Hhigh.
    assert (Hall : Forall (fun b => (100 <= Z.of_N (Byte.to_N b) <= 255)%Z)
                     dataArray).
    { eapply Forall_impl; [exact Hhigh|]. intros b Hb. simpl in Hb.
      pose proof (Byte.to_N_bounded b). lia. }
    apply Hrange in Hall. change (inject_Z 100) with 100 in Hall.
    destruct Hmin as [[? ->] | [? ->]]; lra.
Qed.

Lemma one_sample_is_normalised_witness :
  let s := initializeAudio initialApp in
  let dataArray := repeat Byte.x96 frequencyBinCount in
  analyserRef s = true
  /\ dataArray <> []
  /\ exists avg : Q,
       average dataArray = Some avg
       /\ avg * inject_Z (Z.of_nat (length dataArray))
          == inject_Z (byte_sum dataArray)
       /\ updateLipSync true dataArray s
          = Some (setAudioVolume (Qmin 1 (avg / 100)) s,
                  [RequestAnimationFrame]).
Proof.
  intros s dataArray.
  assert (Hne : dataArray <> []) by discriminate.
  split; [reflexivity|]. split; [exact Hne|].
  destruct (one_sample_is_normalised dataArray s eq_refl Hne)
    as (avg & Havg & Hmean & Hrun & _).
  exists avg. split; [exact Havg|]. split; [exact Hmean | exact Hrun].
Defined.

(** ** The message handler around its [await] *)

Lemma andThen_fst (a b : action) (s : App) :
  fst ((a ;; b) s) = fst (b (fst (a s))).
Proof.
  unfold andThen. destruct (a s) as [s1 o1]. simpl.
  now destruct (b s1).
Qed.

Lemma andThen_snd (a b : action) (s : App) :
  snd ((a ;; b) s) = snd (a s) ++ snd (b (fst (a s))).
Proof.
  unfold andThen. destruct (a s) as [s1 o1]. simpl.
  now destruct (b s1).
Qed.

(** When the decode resolves before anything else happens, the two
    halves of the handler make up [onmessage]. *)
Lemma arrives_then_decoded (now : Q) (m : LiveServerMessage) (r : Runtime) :
  awaiting r = [] ->
  let res := runtime_run [Arrives now m; Decoded 0] r in
  appState (fst res) = fst (onmessage now m (appState r))
  /\ awaiting (fst res) = []
  /\ snd res = snd (onmessage now m (appState r)).
Proof.
  intros Hw. destruct r as [s w rd ar]. simpl in Hw. subst w.
  change (onmessage now m) with (audio_branch now m ;; after_audio m).
  rewrite andThen_fst, andThen_snd.
  unfold runtime_run, runtime_step, onmessage_begin, audio_branch.
  simpl appState. simpl awaiting.
  destruct (inlineAudio m) as [d|] eqn:Ha;
    [destruct (outputAudioContextRef s) eqn:ctx |].
  - rewrite andThen_fst, andThen_snd.
    change (snd (audio_arrive now s)) with (@nil effect).
    unfold settle, onmessage_resume. simpl. rewrite Ha.
    rewrite andThen_fst, andThen_snd, app_nil_r.
    repeat split.
  - unfold settle, skip. simpl. destruct (after_audio m s) as [s' out].
    simpl. rewrite app_nil_r. repeat split.
  - unfold settle, skip. simpl. destruct (after_audio m s) as [s' out].
    simpl. rewrite app_nil_r. repeat split.
Qed.

(** C9. Across the [await] of line 148 the speaking flag and the active
    set come apart.  A chunk arrives, an interruption is handled while
    the chunk is being decoded, the decode resolves: the source is created
    and started, and [isSpeaking] is false beside a non-empty active set.
    A chunk arrives and its decode is rejected: [isSpeaking] is true
    beside an empty active set. *)
Theorem speaking_breaks_across_the_await :
  let r0 := fst (runtime_run [Callback (Connect true None Granted);
                              Callback OnOpen] initialRuntime) in
  (let res := runtime_run [Arrives 0 (AudioChunk 1);
                           Arrives (1 # 10) Interrupted;
                           Decoded 0] r0 in
   awaiting (fst res) = []
   /\ isSpeaking (appState (fst res)) = false
   /\ elements (sourcesRef (appState (fst res))) = [0%nat]
   /\ slots (snd res)
      = [{| slot_source := 0; scheduledStart := 0; slot_duration := 1 |}])
  /\ (let res := runtime_run [Arrives 0 (AudioChunk 1); DecodeFailed 0] r0 in
      awaiting (fst res) = []
      /\ isSpeaking (appState (fst res)) = true
      /\ sourcesRef (appState (fst res)) = ∅
      /\ slots (snd res) = []).
Proof.
  intros r0. split.
  - split; [| split; [| split]]; vm_compute; reflexivity.
  - split; [| split; [| split]]; vm_compute; reflexivity.
Qed.

(** ** The lip-sync callbacks in [requestAnimationFrame] *)

Lemma call_true (dataArray : list Byte.byte) (avg : Q) (s : App) :
  analyserRef s = true ->
  average dataArray = Some avg ->
  call_updateLipSync true dataArray s
  = (setAudioVolume (Qmin 1 (avg / 100)) s, [true]).
Proof.
  intros Han Havg. unfold call_updateLipSync, updateLipSync.
  now rewrite Han, Havg.
Qed.

Lemma call_armed_true (dataArray : list Byte.byte) (avg : Q)
  (waiting : list bool) (s : App) :
  analyserRef s = true ->
  average dataArray = Some avg ->
  Forall (fun c => c = true) waiting ->
  snd (call_armed dataArray waiting s) = waiting
  /\ isSpeaking (fst (call_armed dataArray waiting s)) = isSpeaking s
  /\ analyserRef (fst (call_armed dataArray waiting s)) = true
  /\ (waiting <> [] ->
      audioVolume (fst (call_armed dataArray waiting s))
      = Qmin 1 (avg / 100)).
Proof.
  intros Han Havg Hall. revert s Han.
  induction Hall as [|c rest -> _ IH]; intros s Han.
  - simpl. repeat split; [exact Han | congruence].
  - simpl call_armed. rewrite (call_true dataArray avg s Han Havg).
    destruct (IH (setAudioVolume (Qmin 1 (avg / 100)) s) Han)
      as (Hagain & Hsp & Han' & Hvol).
    assert (Hvol' : audioVolume
                      (fst (call_armed dataArray rest
                              (setAudioVolume (Qmin 1 (avg / 100)) s)))
                    = Qmin 1 (avg / 100))
      by (destruct rest; [reflexivity | apply Hvol; discriminate]).
    destruct (call_armed dataArray rest _) as [s2 again2].
    simpl in *. subst again2. repeat split; try assumption.
    intros _. exact Hvol'.
Qed.

Lemma call_keeps_flag (P : bool -> Prop) (speaking : bool)
  (dataArray : list Byte.byte) (s : App) :
  P speaking -> Forall P (snd (call_updateLipSync speaking dataArray s)).
Proof.
  intros Hp. unfold call_updateLipSync.
  destruct (updateLipSync speaking dataArray s) as [[s' out]|];
    [destruct (rearms out) |]; simpl; repeat constructor; exact Hp.
Qed.

Lemma call_armed_keeps_flags (P : bool -> Prop)
  (dataArray : list Byte.byte) (waiting : list bool) (s : App) :
  Forall P waiting -> Forall P (snd (call_armed dataArray waiting s)).
Proof.
  intros Hall. revert s. induction Hall as [|c rest Hc _ IH]; intros s.
  - constructor.
  - simpl. pose proof (call_keeps_flag P c dataArray s Hc) as H1.
    destruct (call_updateLipSync c dataArray s) as [s1 again1].
    specialize (IH s1).
    destruct (call_armed dataArray rest s1) as [s2 again2].
    simpl in *. apply Forall_app. now split.
Qed.

Lemma step_armed_true (e : runtime_event) (r : Runtime) :
  Forall (fun c => c = true) (armed r) ->
  Forall (fun c => c = true) (armed (fst (runtime_step e r))).
Proof.
  intros Hall. destruct e as [e|now m|k|k|dataArray|dataArray]; simpl.
  - destruct e; exact Hall.
  - destruct (onmessage_begin now m (appState r)) as [[s' out] stopped].
    exact Hall.
  - unfold settle. destruct (awaiting r !! k); exact Hall.
  - unfold settle. destruct (awaiting r !! k); exact Hall.
  - unfold commit.
    destruct (Bool.eqb _ _); [exact Hall|].
    destruct (isSpeaking (appState r)); [| exact Hall].
    pose proof (call_keeps_flag (fun c => c = true) true dataArray
                  (appState r) eq_refl) as Hcall.
    destruct (call_updateLipSync true dataArray (appState r)) as [s' again].
    simpl in *. apply Forall_app. now split.
  - unfold frame.
    pose proof (call_armed_keeps_flags (fun c => c = true) dataArray
                  (armed r) (appState r) Hall) as Hcall.
    destruct (call_armed dataArray (armed r) (appState r)) as [s' again].
    exact Hcall.
Qed.

Lemma run_armed_true (es : list runtime_event) (r : Runtime) :
  Forall (fun c => c = true) (armed r) ->
  Forall (fun c => c = true) (armed (fst (runtime_run es r))).
Proof.
  revert r. induction es as [|e es IH]; intros r Hall; [exact Hall|].
  simpl. pose proof (step_armed_true e r Hall) as H1.
  destruct (runtime_step e r) as [r1 o1]. specialize (IH r1 H1).
  now destruct (runtime_run es r1).
Qed.

(** C7. Sampling does not stop when speech does.  Every lip-sync
    callback that waits in [requestAnimationFrame] closed over a true
    [isSpeaking]: the effect calls no other.  Such a callback, at every
    frame, sets the volume to [min(1, average / 100)] and waits for the
    next frame again, whatever [isSpeaking] has become.  So after the
    last source has ended, a frame whose magnitudes are all 64 leaves the
    volume at 16/25 beside a false [isSpeaking], the callback still
    waiting. *)
Theorem lip_sync_loop_outlives_speech :
  (forall es : list runtime_event,
     Forall (fun c => c = true) (armed (fst (runtime_run es initialRuntime))))
  /\ (forall (r : Runtime) (dataArray : list Byte.byte) (avg : Q),
        analyserRef (appState r) = true ->
        armed r <> [] ->
        Forall (fun c => c = true) (armed r) ->
        average dataArray = Some avg ->
        let r' := frame dataArray r in
        armed r' = armed r
        /\ audioVolume (appState r') = Qmin 1 (avg / 100)
        /\ isSpeaking (appState r') = isSpeaking (appState r))
  /\ (let magnitudes := repeat Byte.x40 frequencyBinCount in
      let r := fst (runtime_run
                      [Callback (Connect true None Granted); Callback OnOpen;
                       Arrives 0 (AudioChunk 1); Decoded 0;
                       Commit magnitudes; Frame magnitudes;
                       Callback (SourceEnded 0);
                       Commit magnitudes; Frame magnitudes]
                      initialRuntime) in
      sourcesRef (appState r) = ∅
      /\ isSpeaking (appState r) = false
      /\ rendered r = false
      /\ armed r = [true]
      /\ audioVolume (appState r) == 16 # 25).
Proof.
  split; [| split].
  - intros es. apply run_armed_true. constructor.
  - intros r dataArray avg Han Hne Hall Havg r'. unfold r', frame.
    destruct (call_armed_true dataArray avg (armed r) (appState r)
                Han Havg Hall) as (Hagain & Hsp & _ & Hvol).
    destruct (call_armed dataArray (armed r) (appState r)) as [s' again].
    simpl in *. split; [exact Hagain|]. split; [now apply Hvol | exact Hsp].
  - intros magnitudes r.
    split; [| split; [| split; [| split]]]; vm_compute; reflexivity.
Qed.

Lemma lip_sync_loop_outlives_speech_witness :
  let magnitudes := repeat Byte.x40 frequencyBinCount in
  let r := fst (runtime_run
                  [Callback (Connect true None Granted); Callback OnOpen;
                   Arrives 0 (AudioChunk 1); Decoded 0;
                   Commit magnitudes; Frame magnitudes;
                   Callback (SourceEnded 0); Commit magnitudes]
                  initialRuntime) in
  (isSpeaking (appState r) = false
   /\ analyserRef (appState r) = true
   /\ armed r <> []
   /\ Forall (fun c => c = true) (armed r)
   /\ average magnitudes = Some (2048 # 32))
  /\ armed (frame magnitudes r) = armed r
  /\ audioVolume (appState (frame magnitudes r)) = Qmin 1 ((2048 # 32) / 100)
  /\ isSpeaking (appState (frame magnitudes r)) = false.
Proof.
  intros magnitudes r.
  assert (Han : analyserRef (appState r) = true) by reflexivity.
  assert (Hne : armed r <> []) by discriminate.
  assert (Hall : Forall (fun c => c = true) (armed r))
    by (repeat constructor).
  assert (Havg : average magnitudes = Some (2048 # 32)) by reflexivity.
  split; [repeat split; assumption|].
  exact (proj1 (proj2 lip_sync_loop_outlives_speech)
           r magnitudes (2048 # 32) Han Hne Hall Havg).
Defined.
